(** * SmartSnap instance-pool scheduler

    A shallow embedding of [svagent/advanced_docker_scheduler.py]: the
    instance records, the registry, the ready queue, the bodies of the
    scheduler's coroutines cut at their [await] points, and the
    cooperative interleaving of those pieces on one asyncio event loop.

    Conventions.
    - Python [int] is [Z]; [datetime] values are [Z] timestamps.
    - [self.instances] (a dict from instance id to a [DockerInstance]
      object) is a [gmap string DockerInstance].  Every object is entered
      once, under its own id, by [_create_instance]; a coroutine that keeps
      a reference to the object and assigns to one of its fields is an
      [alter] at that id.  Writes to an object that has already left the
      registry are not observable through [self.instances] and are dropped.
    - [self.ready_queue] (an unbounded [asyncio.Queue]) is a list, head
      first out, [put] appends at the end.
    - Calls that leave the process (provisioner, HTTP probe) are inputs:
      their outcome is an argument of the function that consumes it.

    The loops at the two ends of the scheduler are embedded as well: the
    provisioner client ([svagent/docker_client_tione.py], [create_env]
    and [delete_env]), the readiness test, and the worker's side of the
    HTTP interface ([AdvancedDockerManager] in
    [svagent/mobile_session.py]).  A loop that waits on the outside
    consumes the list of answers it is given and yields [None] when the
    answers run out before it has ended. *)

From Stdlib Require Import ZArith Lia.
From stdpp Require Import gmap strings list fin_maps.

Local Open Scope Z_scope.

(** ** Data model *)

(** [class InstanceStatus(Enum)] *)
Inductive InstanceStatus : Set :=
| CREATING
| TESTING
| READY
| ALLOCATED
| DESTROYING
| FAILED.

#[global] Instance InstanceStatus_eq_dec : EqDecision InstanceStatus.
Proof. solve_decision. Defined.

(** [@dataclass class DockerInstance] *)
Record DockerInstance : Set := mkInstance {
  instance_id : string;
  env_id : string;
  endpoint : string;
  status : InstanceStatus;
  created_at : Z;
  allocated_at : option Z;
  client_id : option string;
  last_health_check : option Z;
  error_message : string
}.

(** [self.stats] *)
Record Stats : Set := mkStats {
  total_created : Z;
  total_allocated : Z;
  total_destroyed : Z;
  total_failed : Z;
  start_time : Z
}.

(** [class DockerScheduler]: the attributes set by [__init__] that the
    scheduling logic reads or writes. *)
Record DockerScheduler : Type := mkScheduler {
  pool_size : Z;
  max_pool_size : Z;
  api_test_timeout : Z;
  health_check_interval : Z;
  instances : gmap string DockerInstance;
  ready_queue : list string;
  running : bool;
  stats : Stats
}.

(** Field assignments. *)
Definition with_status (st : InstanceStatus) (i : DockerInstance) : DockerInstance :=
  mkInstance (instance_id i) (env_id i) (endpoint i) st (created_at i)
             (allocated_at i) (client_id i) (last_health_check i) (error_message i).

Definition with_env (e ep : string) (i : DockerInstance) : DockerInstance :=
  mkInstance (instance_id i) e ep (status i) (created_at i)
             (allocated_at i) (client_id i) (last_health_check i) (error_message i).

Definition with_allocation (now : Z) (c : option string) (i : DockerInstance) : DockerInstance :=
  mkInstance (instance_id i) (env_id i) (endpoint i) (status i) (created_at i)
             (Some now) c (last_health_check i) (error_message i).

Definition with_health_check (now : Z) (i : DockerInstance) : DockerInstance :=
  mkInstance (instance_id i) (env_id i) (endpoint i) (status i) (created_at i)
             (allocated_at i) (client_id i) (Some now) (error_message i).

Definition with_error (msg : string) (i : DockerInstance) : DockerInstance :=
  mkInstance (instance_id i) (env_id i) (endpoint i) (status i) (created_at i)
             (allocated_at i) (client_id i) (last_health_check i) msg.

Definition set_instances (m : gmap string DockerInstance) (s : DockerScheduler) : DockerScheduler :=
  mkScheduler (pool_size s) (max_pool_size s) (api_test_timeout s)
              (health_check_interval s) m (ready_queue s) (running s) (stats s).

Definition set_ready_queue (q : list string) (s : DockerScheduler) : DockerScheduler :=
  mkScheduler (pool_size s) (max_pool_size s) (api_test_timeout s)
              (health_check_interval s) (instances s) q (running s) (stats s).

Definition set_running (b : bool) (s : DockerScheduler) : DockerScheduler :=
  mkScheduler (pool_size s) (max_pool_size s) (api_test_timeout s)
              (health_check_interval s) (instances s) (ready_queue s) b (stats s).

Definition set_stats (st : Stats) (s : DockerScheduler) : DockerScheduler :=
  mkScheduler (pool_size s) (max_pool_size s) (api_test_timeout s)
              (health_check_interval s) (instances s) (ready_queue s) (running s) st.

Definition incr_created (st : Stats) : Stats :=
  mkStats (total_created st + 1) (total_allocated st) (total_destroyed st)
          (total_failed st) (start_time st).

Definition incr_allocated (st : Stats) : Stats :=
  mkStats (total_created st) (total_allocated st + 1) (total_destroyed st)
          (total_failed st) (start_time st).

Definition incr_destroyed (st : Stats) : Stats :=
  mkStats (total_created st) (total_allocated st) (total_destroyed st + 1)
          (total_failed st) (start_time st).

Definition incr_failed (st : Stats) : Stats :=
  mkStats (total_created st) (total_allocated st) (total_destroyed st)
          (total_failed st + 1) (start_time st).

(** Assignment through a held reference to the object registered at [id]. *)
Definition update_instance (f : DockerInstance → DockerInstance) (id : string)
    (s : DockerScheduler) : DockerScheduler :=
  set_instances (alter f id (instances s)) s.

(** [DockerScheduler.__init__] *)
Definition new_scheduler (pool max test_timeout interval now : Z) : DockerScheduler :=
  mkScheduler pool max test_timeout interval ∅ [] false (mkStats 0 0 0 0 now).

(** [start]: a second call on a running scheduler returns at once;
    otherwise the flag is raised and a fresh queue is installed. *)
Definition start (s : DockerScheduler) : DockerScheduler :=
  if running s then s else set_ready_queue [] (set_running true s).

(** ** Destruction ([_destroy_instance]) *)

(** [instance.status = InstanceStatus.DESTROYING] *)
Definition destroy_mark (id : string) (s : DockerScheduler) : DockerScheduler :=
  update_instance (with_status DESTROYING) id s.

(** The [finally] block:
    [if instance_id in self.instances: del ...; total_destroyed += 1]. *)
Definition destroy_finally (id : string) (s : DockerScheduler) : DockerScheduler :=
  match instances s !! id with
  | Some _ => set_stats (incr_destroyed (stats s)) (set_instances (delete id (instances s)) s)
  | None => s
  end.

(** Outcome of [await manager.delete_env(env_id)]. *)
Inductive DeleteOutcome : Set :=
| DeleteOk
| DeleteRaised (e : string).

(** [_destroy_instance] run without interruption.  [delete_env] is the
    provisioner's answer for a given environment id; it is consulted
    only when the record carries a non-empty [env_id]. *)
Definition _destroy_instance (delete_env : string → DeleteOutcome) (id : string)
    (s : DockerScheduler) : DockerScheduler :=
  match instances s !! id with
  | None => s
  | Some inst =>
      let s1 := destroy_mark id s in
      if String.eqb (env_id inst) "" then destroy_finally id s1
      else match delete_env (env_id inst) with
           | DeleteOk => destroy_finally id s1
           | DeleteRaised _ => destroy_finally id s1
           end
  end.

(** ** Creation ([_create_instance]) *)

Definition new_instance (id : string) (now : Z) : DockerInstance :=
  mkInstance id "" "" CREATING now None None None "".

(** Up to [await manager.create_env()]: the CREATING record is entered. *)
Definition create_begin (id : string) (now : Z) (s : DockerScheduler) : DockerScheduler :=
  set_instances (<[id := new_instance id now]> (instances s)) s.

(** Outcome of [await manager.create_env()] followed by the two [.get]. *)
Inductive EnvOutcome : Set :=
| EnvReturned (e ep : string)
| EnvRaised (msg : string).

(** [if not env_id or not endpoint: raise] *)
Definition env_complete (e ep : string) : bool :=
  negb (String.eqb e "") && negb (String.eqb ep "").

(** From the return of [create_env] to [await self._test_instance_api]. *)
Definition create_env_ok (id e ep : string) (s : DockerScheduler) : DockerScheduler :=
  set_stats (incr_created (stats s))
    (update_instance (fun i => with_status TESTING (with_env e ep i)) id s).

(** The probe succeeded: READY, stamped, enqueued. *)
Definition create_test_ok (id : string) (now : Z) (s : DockerScheduler) : DockerScheduler :=
  let s1 := update_instance (fun i => with_health_check now (with_status READY i)) id s in
  set_ready_queue (ready_queue s1 ++ [id]) s1.

(** The [except Exception] handler, up to the call of [_destroy_instance]. *)
Definition create_failed (id msg : string) (s : DockerScheduler) : DockerScheduler :=
  set_stats (incr_failed (stats s))
    (update_instance (fun i => with_error msg (with_status FAILED i)) id s).

(** [_create_instance] run without interruption; the result is the
    returned instance ([None] on failure). *)
Definition _create_instance (id : string) (now : Z) (env : EnvOutcome)
    (probe_ok : bool) (ready_at : Z) (delete_env : string → DeleteOutcome)
    (s : DockerScheduler) : DockerScheduler * option DockerInstance :=
  let s0 := create_begin id now s in
  let fail msg := (_destroy_instance delete_env id (create_failed id msg s0), None) in
  match env with
  | EnvRaised msg => fail msg
  | EnvReturned e ep =>
      if env_complete e ep then
        let s1 := create_env_ok id e ep s0 in
        if probe_ok then
          let s2 := create_test_ok id ready_at s1 in
          (s2, instances s2 !! id)
        else (_destroy_instance delete_env id (create_failed id "API测试失败" s1), None)
      else fail "创建失败，返回信息不完整"
  end.

(** ** Health checking *)

(** Outcome of the [requests.post] probe. *)
Inductive ProbeOutcome : Set :=
| ProbeResponse (status_code : Z)
| ProbeRaised (e : string).

(** [response.status_code in [200, 201, 202]] *)
Definition probe_passed (p : ProbeOutcome) : bool :=
  match p with
  | ProbeResponse c => (c =? 200) || (c =? 201) || (c =? 202)
  | ProbeRaised _ => false
  end.

(** The scan's test on a READY record: never checked, or checked more
    than one interval ago. *)
Definition stale (now interval : Z) (i : DockerInstance) : bool :=
  match last_health_check i with
  | None => true
  | Some t => interval <? now - t
  end.

(** First loop of [_handle_unhealthy_instance]: the ready queue is
    emptied into [temp], dropping the first item equal to [id]. *)
Fixpoint drain (id : string) (q : list string) (removed : bool) (temp : list string)
    : list string :=
  match q with
  | [] => temp
  | item :: rest =>
      if bool_decide (item = id) && negb removed
      then drain id rest true temp
      else drain id rest removed (temp ++ [item])
  end.

(** Second loop: [temp] is put back, item by item. *)
Fixpoint refill (temp : list string) (q : list string) : list string :=
  match temp with
  | [] => q
  | item :: rest => refill rest (q ++ [item])
  end.

Definition eject (id : string) (s : DockerScheduler) : DockerScheduler :=
  set_ready_queue (refill (drain id (ready_queue s) false []) []) s.

(** [_handle_unhealthy_instance(instance)], with [id = instance.instance_id]. *)
Definition _handle_unhealthy_instance (delete_env : string → DeleteOutcome)
    (id : string) (s : DockerScheduler) : DockerScheduler :=
  _destroy_instance delete_env id (eject id s).

(** [_check_instance_health(instance)] from the return of the probe on. *)
Definition _check_instance_health (delete_env : string → DeleteOutcome)
    (id : string) (p : ProbeOutcome) (now : Z) (s : DockerScheduler) : DockerScheduler :=
  if probe_passed p then update_instance (with_health_check now) id s
  else _handle_unhealthy_instance delete_env id s.

(** ** Allocation ([allocate_instance]) *)

(** Outcome of the bounded wait on [self.ready_queue.get()]. *)
Inductive Dequeue : Set :=
| Dequeued (id : string)
| DequeueTimeout
| DequeueRaised (e : string).

(** The wait, run with nobody else progressing: an item is taken if the
    queue holds one, otherwise the three seconds elapse.  [fault] is an
    exception other than a timeout raised by the hand-off itself (the
    scheduler's loop is closed, the queue was never created). *)
Definition queue_get (fault : option string) (s : DockerScheduler)
    : Dequeue * DockerScheduler :=
  match fault with
  | Some e => (DequeueRaised e, s)
  | None =>
      match ready_queue s with
      | id :: rest => (Dequeued id, set_ready_queue rest s)
      | [] => (DequeueTimeout, s)
      end
  end.

(** What a call of [allocate_instance] leaves behind: the scheduler, the
    returned value ([None], or the record as [to_dict] renders it) and
    the [put]s submitted to the scheduler's loop with
    [run_coroutine_threadsafe] that have not run yet. *)
Record Allocation : Type := mkAllocation {
  alloc_sched : DockerScheduler;
  alloc_result : option DockerInstance;
  alloc_submitted : list string
}.

(** "Dequeued instance not ready, requeueing." *)
Definition requeue (same_loop : bool) (id : string) (s : DockerScheduler) : Allocation :=
  if same_loop then mkAllocation (set_ready_queue (ready_queue s ++ [id]) s) None []
  else mkAllocation s None [id].

(** From the return of the dequeue on. *)
Definition allocate_dequeued (same_loop : bool) (client : string) (now : Z)
    (id : string) (s : DockerScheduler) : Allocation :=
  match instances s !! id with
  | None => requeue same_loop id s
  | Some inst =>
      if decide (status inst = READY) then
        let granted := with_allocation now (Some client) (with_status ALLOCATED inst) in
        mkAllocation
          (set_stats (incr_allocated (stats s))
             (update_instance
                (fun i => with_allocation now (Some client) (with_status ALLOCATED i)) id s))
          (Some granted) []
      else requeue same_loop id s
  end.

(** [allocate_instance]: the [try] body and its two handlers, both of
    which return [None]. *)
Definition allocate_instance (same_loop : bool) (fault : option string)
    (client : string) (now : Z) (s : DockerScheduler) : Allocation :=
  match queue_get fault s with
  | (Dequeued id, s1) => allocate_dequeued same_loop client now id s1
  | (DequeueTimeout, s1) => mkAllocation s1 None []
  | (DequeueRaised _, s1) => mkAllocation s1 None []
  end.

(** ** Release ([release_instance]) *)

(** The two guards: the instance exists and
    [instance.client_id != client_id] is false.  The argument is compared
    with an [Optional[str]] field, and nothing stops a caller from
    passing [None]. *)
Definition release_permitted (id : string) (client : option string)
    (s : DockerScheduler) : bool :=
  match instances s !! id with
  | None => false
  | Some inst => bool_decide (client_id inst = client)
  end.

Definition release_instance (delete_env : string → DeleteOutcome) (id : string)
    (client : option string) (s : DockerScheduler) : DockerScheduler * bool :=
  if release_permitted id client s then (_destroy_instance delete_env id s, true)
  else (s, false).

(** ** Pool manager ([_pool_manager]) *)

(** [sum(1 for inst in self.instances.values() if inst.status == st)] *)
Definition count_status (st : InstanceStatus) (s : DockerScheduler) : Z :=
  Z.of_nat (length (filter (fun i => status i = st) (snd <$> map_to_list (instances s)))).

Definition ready_count (s : DockerScheduler) : Z := Z.of_nat (length (ready_queue s)).
Definition creating_count (s : DockerScheduler) : Z := count_status CREATING s.
Definition testing_count (s : DockerScheduler) : Z := count_status TESTING s.
Definition allocated_count (s : DockerScheduler) : Z := count_status ALLOCATED s.

Definition total_active (s : DockerScheduler) : Z :=
  ready_count s + creating_count s + testing_count s.

Definition total_instances (s : DockerScheduler) : Z := Z.of_nat (size (instances s)).

Definition needed (s : DockerScheduler) : Z := pool_size s - total_active s.

Definition can_create (s : DockerScheduler) : Z := max_pool_size s - total_instances s.

Definition concurrent_creation_limit : Z := 128.

Definition ongoing_creations (s : DockerScheduler) : Z := creating_count s + testing_count s.

Definition creation_slots_available (s : DockerScheduler) : Z :=
  Z.max 0 (concurrent_creation_limit - ongoing_creations s).

(** [min(needed, can_create, creation_slots_available)] *)
Definition actual_needed (s : DockerScheduler) : Z :=
  Z.min (Z.min (needed s) (can_create s)) (creation_slots_available s).

(** Number of coroutines in
    [[self._create_instance() for _ in range(actual_needed)]], built only
    under [if actual_needed > 0]. *)
Definition launched (s : DockerScheduler) : nat :=
  if 0 <? actual_needed s then Z.to_nat (actual_needed s) else 0%nat.

(** ** The event loop

    The coroutines above are suspended at their [await]s; what is kept of
    a suspended coroutine is where it stands and the instance id it
    holds.  A step resumes one of them and runs it to its next status
    assignment or suspension.  Cutting a coroutine more finely than
    asyncio does only adds interleavings. *)

(** Who awaits a running [_destroy_instance]. *)
Inductive Caller : Set :=
| ByCreate      (* the [except] handler of [_create_instance] *)
| ByRelease     (* [release_instance] *)
| ByHealth      (* [_handle_unhealthy_instance] *)
| ByShutdown.   (* the [gather] of [shutdown] *)

Inductive Task : Set :=
| CreateScheduled                          (* child of the pool manager's [gather], not started *)
| CreateAwaitEnv (id : string)             (* at [await manager.create_env()] *)
| CreateAwaitTest (id : string)            (* at [await self._test_instance_api(instance)] *)
| DestroyCall (k : Caller) (id : string)   (* entering [_destroy_instance] *)
| DestroyMarked (k : Caller) (id : string) (* past the DESTROYING assignment, before [finally] *)
| HealthProbe (id : string)                (* [_check_instance_health] at its probe *)
| AllocHolding (client id : string)        (* [allocate_instance] resumed with a dequeued id *)
| ShutdownAwaitCancel.                     (* [shutdown] awaiting the cancelled background tasks *)

(** Where [_pool_manager] stands. *)
Inductive PoolManager : Set :=
| PMSleeping      (* at [await asyncio.sleep(sleep_time)] *)
| PMGathering     (* at [await asyncio.gather] over the new children *)
| PMCancelled.

Record World : Type := mkWorld {
  sched : DockerScheduler;
  pool_manager : PoolManager;
  tasks : list Task
}.

(** The coroutines cancelled together with the pool manager: the
    children of its [gather], wherever they stand. *)
Definition creation_child (t : Task) : bool :=
  match t with
  | CreateScheduled | CreateAwaitEnv _ | CreateAwaitTest _ => true
  | DestroyCall ByCreate _ | DestroyMarked ByCreate _ => true
  | _ => false
  end.

(** [CancelledError] is not an [Exception]: a cancelled child leaves its
    record as it is, except that a child inside [_destroy_instance]
    still runs the [finally] block on its way out. *)
Fixpoint unwind (ts : list Task) (s : DockerScheduler) : DockerScheduler :=
  match ts with
  | [] => s
  | DestroyMarked ByCreate id :: rest => unwind rest (destroy_finally id s)
  | _ :: rest => unwind rest s
  end.

Definition survivors (ts : list Task) : list Task :=
  filter (fun t => creation_child t = false) ts.

(** The ids a task holds. *)
Definition holds (id : string) (t : Task) : bool :=
  match t with
  | CreateScheduled | ShutdownAwaitCancel => false
  | CreateAwaitEnv i | CreateAwaitTest i | HealthProbe i => bool_decide (i = id)
  | DestroyCall _ i | DestroyMarked _ i => bool_decide (i = id)
  | AllocHolding _ i => bool_decide (i = id)
  end.

(** [inst_{int(time.time())}_{os.urandom(4).hex()}] is taken to be an id
    that is in use nowhere. *)
Definition fresh (id : string) (w : World) : Prop :=
  instances (sched w) !! id = None ∧
  (id ∉ ready_queue (sched w)) ∧
  Forall (fun t => holds id t = false) (tasks w).

Inductive Label : Type :=
| PoolCycle
| GatherDone
| CreateStart (id : string) (now : Z)
| CreateEnvReturn (id : string) (o : EnvOutcome)
| CreateTestReturn (id : string) (ok : bool) (now : Z)
| DestroyEnter (k : Caller) (id : string)
| DestroyLeave (k : Caller) (id : string) (o : DeleteOutcome)
| HealthLaunch (id : string) (now : Z)
| HealthReturn (id : string) (p : ProbeOutcome) (now : Z)
| AllocTake (client : string)
| AllocFinish (client id : string) (now : Z)
| Release (id client : string)
| ShutdownBegin
| ShutdownDestroyAll.

(** [str(e)] of the exception that sends [_create_instance] to its handler. *)
Definition env_error (o : EnvOutcome) : option string :=
  match o with
  | EnvRaised msg => Some msg
  | EnvReturned e ep =>
      if env_complete e ep then None else Some "创建失败，返回信息不完整"
  end.

Inductive step : World → Label → World → Prop :=
(* One iteration of [while self.running] in [_pool_manager], from the
   counts to the [gather] (or, with nothing to create, to the sleep). *)
| step_pool_cycle s ts :
    running s = true →
    step (mkWorld s PMSleeping ts) PoolCycle
         (mkWorld s (if launched s is O then PMSleeping else PMGathering)
                  (ts ++ replicate (launched s) CreateScheduled))
(* [gather] returns once every child has returned. *)
| step_gather_done s ts :
    Forall (fun t => creation_child t = false) ts →
    step (mkWorld s PMGathering ts) GatherDone (mkWorld s PMSleeping ts)
| step_create_start s pm t1 t2 id now :
    fresh id (mkWorld s pm (t1 ++ CreateScheduled :: t2)) →
    step (mkWorld s pm (t1 ++ CreateScheduled :: t2)) (CreateStart id now)
         (mkWorld (create_begin id now s) pm (t1 ++ CreateAwaitEnv id :: t2))
| step_create_env_ok s pm t1 t2 id e ep :
    env_complete e ep = true →
    step (mkWorld s pm (t1 ++ CreateAwaitEnv id :: t2))
         (CreateEnvReturn id (EnvReturned e ep))
         (mkWorld (create_env_ok id e ep s) pm (t1 ++ CreateAwaitTest id :: t2))
| step_create_env_failed s pm t1 t2 id o msg :
    env_error o = Some msg →
    step (mkWorld s pm (t1 ++ CreateAwaitEnv id :: t2)) (CreateEnvReturn id o)
         (mkWorld (create_failed id msg s) pm (t1 ++ DestroyCall ByCreate id :: t2))
| step_create_test_ok s pm t1 t2 id now :
    step (mkWorld s pm (t1 ++ CreateAwaitTest id :: t2)) (CreateTestReturn id true now)
         (mkWorld (create_test_ok id now s) pm (t1 ++ t2))
| step_create_test_failed s pm t1 t2 id now :
    step (mkWorld s pm (t1 ++ CreateAwaitTest id :: t2)) (CreateTestReturn id false now)
         (mkWorld (create_failed id "API测试失败" s) pm (t1 ++ DestroyCall ByCreate id :: t2))
(* [if not instance: return] *)
| step_destroy_absent s pm t1 t2 k id :
    instances s !! id = None →
    step (mkWorld s pm (t1 ++ DestroyCall k id :: t2)) (DestroyEnter k id)
         (mkWorld s pm (t1 ++ t2))
| step_destroy_mark s pm t1 t2 k id inst :
    instances s !! id = Some inst →
    step (mkWorld s pm (t1 ++ DestroyCall k id :: t2)) (DestroyEnter k id)
         (mkWorld (destroy_mark id s) pm (t1 ++ DestroyMarked k id :: t2))
| step_destroy_finally s pm t1 t2 k id o :
    step (mkWorld s pm (t1 ++ DestroyMarked k id :: t2)) (DestroyLeave k id o)
         (mkWorld (destroy_finally id s) pm (t1 ++ t2))
(* [_health_checker] hands a stale READY record to a task of its own. *)
| step_health_launch s pm ts id now inst :
    running s = true →
    instances s !! id = Some inst →
    status inst = READY →
    stale now (health_check_interval s) inst = true →
    step (mkWorld s pm ts) (HealthLaunch id now) (mkWorld s pm (ts ++ [HealthProbe id]))
| step_health_passed s pm t1 t2 id p now :
    probe_passed p = true →
    step (mkWorld s pm (t1 ++ HealthProbe id :: t2)) (HealthReturn id p now)
         (mkWorld (update_instance (with_health_check now) id s) pm (t1 ++ t2))
| step_health_failed s pm t1 t2 id p now :
    probe_passed p = false →
    step (mkWorld s pm (t1 ++ HealthProbe id :: t2)) (HealthReturn id p now)
         (mkWorld (eject id s) pm (t1 ++ DestroyCall ByHealth id :: t2))
| step_alloc_take s pm ts client id rest :
    ready_queue s = id :: rest →
    step (mkWorld s pm ts) (AllocTake client)
         (mkWorld (set_ready_queue rest s) pm (ts ++ [AllocHolding client id]))
| step_alloc_finish s pm t1 t2 client id now :
    step (mkWorld s pm (t1 ++ AllocHolding client id :: t2)) (AllocFinish client id now)
         (mkWorld (alloc_sched (allocate_dequeued true client now id s)) pm (t1 ++ t2))
| step_release_refused s pm ts id client :
    release_permitted id (Some client) s = false →
    step (mkWorld s pm ts) (Release id client) (mkWorld s pm ts)
| step_release_accepted s pm ts id client :
    release_permitted id (Some client) s = true →
    step (mkWorld s pm ts) (Release id client)
         (mkWorld s pm (ts ++ [DestroyCall ByRelease id]))
(* [shutdown] up to its [await] on the cancelled background tasks *)
| step_shutdown_begin s pm ts :
    step (mkWorld s pm ts) ShutdownBegin
         (mkWorld (unwind ts (set_running false s)) PMCancelled
                  (survivors ts ++ [ShutdownAwaitCancel]))
(* ... and from there to its [await] on one [_destroy_instance] per registered id *)
| step_shutdown_destroy_all s pm t1 t2 :
    step (mkWorld s pm (t1 ++ ShutdownAwaitCancel :: t2)) ShutdownDestroyAll
         (mkWorld s pm (t1 ++ t2 ++ (DestroyCall ByShutdown <$> (map_to_list (instances s)).*1)))
.

(** The world right after [start()] on a new scheduler. *)
Definition initial (pool max test_timeout interval now : Z) : World :=
  mkWorld (start (new_scheduler pool max test_timeout interval now)) PMSleeping [].

Inductive reachable (w0 : World) : World → Prop :=
| reachable_init : reachable w0 w0
| reachable_step w l w' : reachable w0 w → step w l w' → reachable w0 w'.

(** Status of the record registered under [id], if any. *)
Definition status_at (w : World) (id : string) : option InstanceStatus :=
  status <$> instances (sched w) !! id.

(** ** Status edges *)

(** The transitions of a record's status listed by the specification,
    read on the registry before and after a step ([None]: no record under
    that id), together with "nothing changed" and the entry of a new
    CREATING record. *)
Inductive claimed_edge : option InstanceStatus → option InstanceStatus → Prop :=
| edge_same o : claimed_edge o o
| edge_created : claimed_edge None (Some CREATING)
| edge_creating_testing : claimed_edge (Some CREATING) (Some TESTING)
| edge_testing_ready : claimed_edge (Some TESTING) (Some READY)
| edge_ready_allocated : claimed_edge (Some READY) (Some ALLOCATED)
| edge_ready_destroying : claimed_edge (Some READY) (Some DESTROYING)
| edge_allocated_destroying : claimed_edge (Some ALLOCATED) (Some DESTROYING)
| edge_any_failed st : claimed_edge (Some st) (Some FAILED)
| edge_failed_destroying : claimed_edge (Some FAILED) (Some DESTROYING)
| edge_destroying_removed : claimed_edge (Some DESTROYING) None.

(** The same with the edge the code adds: DESTROYING from any status. *)
Inductive observed_edge : option InstanceStatus → option InstanceStatus → Prop :=
| edge_claimed o o' : claimed_edge o o' → observed_edge o o'
| edge_any_destroying st : observed_edge (Some st) (Some DESTROYING).

(** ** Invariants of the event loop *)

Fixpoint count (p : Task → bool) (ts : list Task) : nat :=
  match ts with
  | [] => 0%nat
  | t :: rest => ((if p t then 1 else 0) + count p rest)%nat
  end.

Definition is_scheduled (t : Task) : bool :=
  match t with CreateScheduled => true | _ => false end.

(** A [_create_instance] that may still assign to the record of [id]. *)
Definition creating (id : string) (t : Task) : bool :=
  match t with
  | CreateAwaitEnv i | CreateAwaitTest i => bool_decide (i = id)
  | _ => false
  end.

(** A coroutine that may still assign to, or destroy, the record of [id]. *)
Definition watches (id : string) (t : Task) : bool :=
  match t with
  | AllocHolding _ _ => false
  | _ => holds id t
  end.

(** The status a suspended coroutine left on its record. *)
Definition expects (t : Task) : option (string * InstanceStatus) :=
  match t with
  | CreateAwaitEnv id => Some (id, CREATING)
  | CreateAwaitTest id => Some (id, TESTING)
  | DestroyMarked _ id => Some (id, DESTROYING)
  | _ => None
  end.

Definition task_ok (s : DockerScheduler) (t : Task) : Prop :=
  match expects t with
  | Some (id, st) => ∀ r, instances s !! id = Some r → status r = st
  | None => True
  end.

Record tasks_inv (w : World) : Prop := mkTasksInv {
  (* outside its [gather] the pool manager has no child *)
  inv_children :
    pool_manager w ≠ PMGathering → Forall (fun t => creation_child t = false) (tasks w);
  (* [shutdown] has cancelled the pool manager before it waits *)
  inv_shutdown : ShutdownAwaitCancel ∈ tasks w → pool_manager w = PMCancelled;
  (* every suspended coroutine finds the status it left *)
  inv_status : Forall (task_ok (sched w)) (tasks w);
  (* a record under creation is watched by its creator alone and has no owner *)
  inv_creator : ∀ id,
    (0 < count (creating id) (tasks w))%nat →
    count (watches id) (tasks w) = 1%nat ∧
    ∀ r, instances (sched w) !! id = Some r → client_id r = None
}.

(** Records plus creations not yet started fit under the maximum. *)
Definition capacity_inv (w : World) : Prop :=
  Z.of_nat (size (instances (sched w))) + Z.of_nat (count is_scheduled (tasks w))
    ≤ Z.max 0 (max_pool_size (sched w)).

(** Every record of [s'] was a record of [s] with the same status and
    owner: between [s] and [s'] records were at most removed or touched
    in other fields. *)
Definition keeps (s s' : DockerScheduler) : Prop :=
  ∀ id r', instances s' !! id = Some r' →
    ∃ r, instances s !! id = Some r ∧ status r = status r' ∧ client_id r = client_id r'.

(** While the pool manager lives, a record that is CREATING or TESTING
    has a creation working on it. *)
Definition births_inv (w : World) : Prop :=
  pool_manager w ≠ PMCancelled →
  ∀ id r, instances (sched w) !! id = Some r →
          status r = CREATING ∨ status r = TESTING →
          (0 < count (creating id) (tasks w))%nat.

(** The ids a coroutine carries towards, or has taken from, the ready
    queue. *)
Definition in_flight (t : Task) : list string :=
  match t with
  | CreateAwaitEnv id | CreateAwaitTest id | AllocHolding _ id => [id]
  | _ => []
  end.

(** No id is queued twice, nor queued while a coroutine carries it. *)
Definition queue_inv (w : World) : Prop :=
  NoDup (ready_queue (sched w) ++ (tasks w ≫= in_flight)).

(** ** Worked scenario: shutdown during the readiness test

    Target and maximum 1.  The pool manager launches one creation, the
    provisioner returns an environment, and while the readiness test is
    still running the scheduler is shut down. *)
Definition world0 : World := initial 1 1 900 1200 0.
Definition world_launched : World :=
  mkWorld (sched world0) PMGathering [CreateScheduled].
Definition world_creating : World :=
  mkWorld (create_begin "inst_1" 1 (sched world0)) PMGathering [CreateAwaitEnv "inst_1"].
Definition world_testing : World :=
  mkWorld (create_env_ok "inst_1" "env-1" "10.0.0.1:6060" (sched world_creating))
          PMGathering [CreateAwaitTest "inst_1"].
Definition world_stopping : World :=
  mkWorld (set_running false (sched world_testing)) PMCancelled [ShutdownAwaitCancel].
Definition world_sweeping : World :=
  mkWorld (sched world_stopping) PMCancelled [DestroyCall ByShutdown "inst_1"].
Definition world_marked : World :=
  mkWorld (destroy_mark "inst_1" (sched world_sweeping)) PMCancelled
          [DestroyMarked ByShutdown "inst_1"].

(** ** Worked scenario: an instance is created, granted and released

    Target 1, maximum 2.  One creation runs to READY; a worker is granted
    the instance. *)
Definition pool0 : World := initial 1 2 900 1200 0.
Definition pool_launched : World :=
  mkWorld (sched pool0) PMGathering [CreateScheduled].
Definition pool_creating : World :=
  mkWorld (create_begin "inst_a" 1 (sched pool0)) PMGathering [CreateAwaitEnv "inst_a"].
Definition pool_testing : World :=
  mkWorld (create_env_ok "inst_a" "env-a" "10.0.0.2:6060" (sched pool_creating))
          PMGathering [CreateAwaitTest "inst_a"].
Definition pool_ready : World :=
  mkWorld (create_test_ok "inst_a" 5 (sched pool_testing)) PMGathering [].
Definition pool_idle : World :=
  mkWorld (sched pool_ready) PMSleeping [].
Definition pool_taken : World :=
  mkWorld (set_ready_queue [] (sched pool_idle)) PMSleeping [AllocHolding "worker" "inst_a"].
Definition pool_granted : World :=
  mkWorld (alloc_sched (allocate_dequeued true "worker" 7 "inst_a" (sched pool_taken)))
          PMSleeping [].

(** The READY record a successful creation leaves. *)
Definition ready_instance (id e ep : string) (now ready_at : Z) : DockerInstance :=
  mkInstance id e ep READY now None None (Some ready_at) "".

(** ** Consistency of registered records *)

(** What the fields of a registered record tell about each other. *)
Definition record_ok (id : string) (r : DockerInstance) : Prop :=
  instance_id r = id ∧
  (status r = CREATING → env_id r = "" ∧ endpoint r = "") ∧
  (status r = TESTING ∨ status r = READY ∨ status r = ALLOCATED →
     env_id r ≠ "" ∧ endpoint r ≠ "") ∧
  (status r = READY ∨ status r = ALLOCATED → is_Some (last_health_check r)) ∧
  (status r = ALLOCATED → is_Some (client_id r) ∧ is_Some (allocated_at r)) ∧
  (is_Some (client_id r) → status r = ALLOCATED ∨ status r = DESTROYING).

(** Every registered record is consistent. *)
Definition registry_inv (w : World) : Prop :=
  ∀ id r, instances (sched w) !! id = Some r → record_ok id r.

(** ** HTTP handlers *)





(** ** Shutdown, run to its end *)

(** [shutdown] with nothing else progressing: the flag is lowered, the
    background tasks are cancelled, and [_destroy_instance] runs for
    every id of [list(self.instances.keys())]. *)
Definition shutdown (delete_env : string → DeleteOutcome) (s : DockerScheduler)
    : DockerScheduler :=
  foldl (fun acc id => _destroy_instance delete_env id acc)
        (set_running false s) ((map_to_list (instances s)).*1).

(** A scheduler whose flag is down has had its pool manager cancelled. *)
Definition stopped_inv (w : World) : Prop :=
  running (sched w) = false → pool_manager w = PMCancelled.

(** ** Status report ([_log_stats], [get_status_async]) *)

(** [status.value] *)
Definition status_value (st : InstanceStatus) : string :=
  match st with
  | CREATING => "creating"
  | TESTING => "testing"
  | READY => "ready"
  | ALLOCATED => "allocated"
  | DESTROYING => "destroying"
  | FAILED => "failed"
  end.

Definition all_statuses : list InstanceStatus :=
  [CREATING; TESTING; READY; ALLOCATED; DESTROYING; FAILED].

(** [status_counts = {status.value: 0 for status in InstanceStatus}],
    then [status_counts[instance.status.value] += 1] for every
    registered instance. *)
Definition status_counts (s : DockerScheduler) : gmap string Z :=
  foldl (fun acc inst => alter (fun n => n + 1) (status_value (status inst)) acc)
        (list_to_map ((fun st => (status_value st, 0)) <$> all_statuses))
        (snd <$> map_to_list (instances s)).

(** [status_counts[key]]; a missing key raises [KeyError]. *)
Definition status_count (key : string) (s : DockerScheduler) : option Z :=
  status_counts s !! key.

(** The dictionary returned by [get_status_async], without [uptime]. *)
Record StatusReport : Type := mkReport {
  report_running : bool;
  report_pool_size : Z;
  report_max_pool_size : Z;
  report_ready_count : Z;
  report_allocated_count : option Z;
  report_creating_count : option Z;
  report_testing_count : option Z;
  report_total_instances : Z;
  report_stats : Stats
}.

Definition get_status_async (s : DockerScheduler) : StatusReport :=
  mkReport (running s) (pool_size s) (max_pool_size s)
           (Z.of_nat (length (ready_queue s)))
           (status_count "allocated" s) (status_count "creating" s)
           (status_count "testing" s)
           (Z.of_nat (size (instances s))) (stats s).

(** ** Health scan ([_health_checker]) *)

(** The ids handed to [_check_instance_health] by one scan at [now]. *)
Definition health_scan (now : Z) (s : DockerScheduler) : list string :=
  (filter (fun kv => status kv.2 = READY ∧
                     stale now (health_check_interval s) kv.2 = true)
          (map_to_list (instances s))).*1.

(** Number of instances of a list that have a given status. *)
Definition tally (st : InstanceStatus) (l : list DockerInstance) : Z :=
  Z.of_nat (length (filter (fun i => status i = st) l)).

(** ** Counters and configuration *)

(** [st'] is [st] with counters that have not gone down. *)
Definition stats_le (st st' : Stats) : Prop :=
  total_created st ≤ total_created st' ∧
  total_allocated st ≤ total_allocated st' ∧
  total_destroyed st ≤ total_destroyed st' ∧
  total_failed st ≤ total_failed st' ∧
  start_time st' = start_time st.

(** The constructor arguments kept by the scheduler. *)
Definition same_config (s s' : DockerScheduler) : Prop :=
  pool_size s' = pool_size s ∧ max_pool_size s' = max_pool_size s ∧
  api_test_timeout s' = api_test_timeout s ∧
  health_check_interval s' = health_check_interval s.

(** ** The provisioner client ([docker_client_tione.py])

    The loops of [TioneEnvManager] wait on the provider.  What the
    provider answers, turn after turn, is an input list; a result of
    [None] means that the answers given so far have not ended the loop. *)

(** One turn of the [while True] of [delete_env]. *)
Inductive DeleteTurn : Set :=
| StillThere     (* delete and describe both went through: the env is still there *)
| NotFound       (* a [TencentCloudSDKException] saying "record not found request" *)
| ApiError       (* any other [TencentCloudSDKException] *)
| Unexpected.    (* any other [Exception] *)

(** How [delete_env] leaves its loop. *)
Inductive DeleteEnd : Set :=
| Confirmed      (* three "not found" answers *)
| Abandoned.     (* an unexpected error *)

Fixpoint delete_env (turns : list DeleteTurn) (num_time_not_found : nat)
    : option DeleteEnd :=
  match turns with
  | [] => None
  | StillThere :: rest => delete_env rest num_time_not_found
  | NotFound :: rest =>
      if (3 <=? S num_time_not_found)%nat then Some Confirmed
      else delete_env rest (S num_time_not_found)
  | ApiError :: rest => delete_env rest num_time_not_found
  | Unexpected :: _ => Some Abandoned
  end.

(** One answer of [describe_env] while [create_env] polls. *)
Inductive Describe : Set :=
| Described (status endpoint : string)
| DescribeRaised (msg : string).

(** [self.status in ("", "CREATED")] *)
Definition still_creating (status : string) : bool :=
  String.eqb status "" || String.eqb status "CREATED".

(** The polling loop of [create_env] (not in debug mode), from the
    current [status] and [endpoint]. *)
Fixpoint create_env_poll (describes : list Describe) (status endpoint : string)
    : option (string + string * string) :=
  if still_creating status then
    match describes with
    | [] => None
    | Described st ep :: rest => create_env_poll rest st ep
    | DescribeRaised msg :: _ => Some (inl msg)
    end
  else Some (inr (status, endpoint)).

(** [create_env] once the create call has returned [env_id], read the
    way [_create_instance] reads it: [env_id] and [endpoint]. *)
Definition create_env (env_id : string) (describes : list Describe) : option EnvOutcome :=
  match create_env_poll describes "" "" with
  | None => None
  | Some (inl msg) => Some (EnvRaised msg)
  | Some (inr (_, endpoint)) => Some (EnvReturned env_id endpoint)
  end.

(** ** The readiness test ([_test_instance_api]) *)

(** One turn of the loop: what [make_request] gave. *)
Inductive ProbeTurn : Set :=
| ProbeAnswered (status_code : Z)
| ProbeRequestError      (* [requests.exceptions.RequestException] *)
| ProbeUnexpected.       (* any other [Exception] *)

(** [response.status_code in [200, 201, 202]] *)
Definition status_accepted (c : Z) : bool :=
  (c =? 200) || (c =? 201) || (c =? 202).

(** Each turn comes with the clock read by the loop test before it.
    [None]: the turns given have not ended the loop. *)
Fixpoint _test_instance_api (timeout start_time : Z) (turns : list (Z * ProbeTurn))
    : option bool :=
  match turns with
  | [] => None
  | (clock, turn) :: rest =>
      if clock - start_time <? timeout then
        match turn with
        | ProbeAnswered c =>
            if status_accepted c then Some true
            else _test_instance_api timeout start_time rest
        | ProbeRequestError => _test_instance_api timeout start_time rest
        | ProbeUnexpected => Some false
        end
      else Some false
  end.

Definition is_not_found (t : DeleteTurn) : bool :=
  match t with NotFound => true | _ => false end.

Definition is_unexpected (t : DeleteTurn) : bool :=
  match t with Unexpected => true | _ => false end.

Fixpoint occurrences (p : DeleteTurn → bool) (turns : list DeleteTurn) : nat :=
  match turns with
  | [] => 0%nat
  | t :: rest => ((if p t then 1 else 0) + occurrences p rest)%nat
  end.

(** A [describe_env] answer that keeps [create_env] polling. *)
Definition keeps_polling (d : Describe) : Prop :=
  ∃ st ep, d = Described st ep ∧ still_creating st = true.

(** A turn after which [_test_instance_api] tries again. *)
Definition retried (timeout start_time : Z) (turn : Z * ProbeTurn) : Prop :=
  turn.1 - start_time < timeout ∧
  (turn.2 = ProbeRequestError ∨
   ∃ c, turn.2 = ProbeAnswered c ∧ status_accepted c = false).

(** ** What [_destroy_instance] asks of the provisioner *)

(** The environment [_destroy_instance] passes to [delete_env]:
    [if instance.env_id: ... await manager.delete_env(instance.env_id)],
    and nothing for an unknown id. *)
Definition destroy_request (id : string) (s : DockerScheduler) : option string :=
  match instances s !! id with
  | Some inst => if String.eqb (env_id inst) "" then None else Some (env_id inst)
  | None => None
  end.

(** The environment [_create_instance] has deleted, through the
    [_destroy_instance] of its [except] handler. *)
Definition create_instance_delete_request (id : string) (now : Z) (env : EnvOutcome)
    (probe_ok : bool) (s : DockerScheduler) : option string :=
  let s0 := create_begin id now s in
  match env with
  | EnvRaised msg => destroy_request id (create_failed id msg s0)
  | EnvReturned e ep =>
      if env_complete e ep then
        if probe_ok then None
        else destroy_request id (create_failed id "API测试失败" (create_env_ok id e ep s0))
      else destroy_request id (create_failed id "创建失败，返回信息不完整" s0)
  end.

(** ** The scheduler's client ([AdvancedDockerManager], [mobile_session.py]) *)

(** What one [POST /allocate] came to, as [_request_instance_async]
    tells the cases apart. *)
Inductive AllocateReply : Set :=
| Granted (instance_id endpoint : string)
    (* status 200, [success] and [data] true, both keys in [data] *)
| Unavailable      (* status 503 *)
| Failed.          (* a 200 without [success] or [data], any other status,
                      any exception *)

(** What a call of [_request_instance_async] did: the grant it returned,
    if any, the seconds it slept and the requests it sent. *)
Record RequestResult : Set := mkRequest {
  granted : option (string * string);
  slept : Z;
  requests : nat
}.

Definition max_retries : nat := 10.
Definition retry_delay_503 : Z := 35.

(** The wait at the end of the loop body: [2 * (attempt + 1)] seconds
    unless the attempt was the last. *)
Definition wait_time (attempt : nat) : Z :=
  if (attempt <? max_retries - 1)%nat then 2 * (Z.of_nat attempt + 1) else 0.

Definition after_sleep (seconds : Z) (r : RequestResult) : RequestResult :=
  mkRequest (granted r) (seconds + slept r) (S (requests r)).

(** The [for attempt in range(max_retries)] loop from [attempt] on, with
    [remaining] attempts to go; [reply k] is the answer attempt [k] gets. *)
Fixpoint request_attempts (reply : nat → AllocateReply) (remaining attempt : nat)
    : RequestResult :=
  match remaining with
  | O => mkRequest None 0 0
  | S k =>
      match reply attempt with
      | Granted i ep => mkRequest (Some (i, ep)) 0 1
      | Unavailable => after_sleep retry_delay_503 (request_attempts reply k (S attempt))
      | Failed => after_sleep (wait_time attempt) (request_attempts reply k (S attempt))
      end
  end.

Definition _request_instance_async (reply : nat → AllocateReply) : RequestResult :=
  request_attempts reply max_retries 0.

(** No grant in this answer. *)
Definition refused (r : AllocateReply) : Prop :=
  ∀ i ep, r ≠ Granted i ep.







(** * Properties *)

(** ** Registry lemmas *)

Section Registry.
Implicit Types (s : DockerScheduler) (id : string) (inst : DockerInstance).

Lemma instances_update f id s :
  instances (update_instance f id s) = alter f id (instances s).
Proof. reflexivity. Qed.

Lemma lookup_update_eq f id s :
  instances (update_instance f id s) !! id = f <$> instances s !! id.
Proof. apply lookup_alter_eq. Qed.

Lemma lookup_update_ne f id id' s :
  id ≠ id' → instances (update_instance f id s) !! id' = instances s !! id'.
Proof. intros. by apply lookup_alter_ne. Qed.

Lemma destroy_finally_absent id s :
  instances s !! id = None → destroy_finally id s = s.
Proof. unfold destroy_finally. by intros ->. Qed.

Lemma destroy_finally_present id s inst :
  instances s !! id = Some inst →
  destroy_finally id s =
    set_stats (incr_destroyed (stats s)) (set_instances (delete id (instances s)) s).
Proof. unfold destroy_finally. by intros ->. Qed.

Lemma lookup_destroy_finally_eq id s : instances (destroy_finally id s) !! id = None.
Proof.
  unfold destroy_finally. destruct (instances s !! id) eqn:E; [|done].
  apply lookup_delete_eq.
Qed.

Lemma lookup_destroy_finally_ne id id' s :
  id ≠ id' → instances (destroy_finally id s) !! id' = instances s !! id'.
Proof.
  intros. unfold destroy_finally. destruct (instances s !! id); [|done].
  by apply lookup_delete_ne.
Qed.

(** Whatever the provisioner answers, a registered id ends up removed
    and counted once. *)
Lemma destroy_instance_present d id s inst :
  instances s !! id = Some inst →
  _destroy_instance d id s =
    set_stats (incr_destroyed (stats s)) (set_instances (delete id (instances s)) s).
Proof.
  intros E. unfold _destroy_instance. rewrite E.
  assert (destroy_finally id (destroy_mark id s) =
          set_stats (incr_destroyed (stats s))
                    (set_instances (delete id (instances s)) s)) as ->.
  { unfold destroy_finally, destroy_mark. rewrite lookup_update_eq, E. simpl.
    unfold set_stats, set_instances, update_instance. simpl.
    by rewrite delete_alter_eq. }
  destruct (String.eqb _ _); [done|]. by destruct (d _).
Qed.

Lemma destroy_instance_absent d id s :
  instances s !! id = None → _destroy_instance d id s = s.
Proof. intros E. unfold _destroy_instance. by rewrite E. Qed.

(** The uninterrupted run is the mark followed by the [finally] block. *)
Lemma destroy_instance_segments d id s :
  _destroy_instance d id s = destroy_finally id (destroy_mark id s).
Proof.
  destruct (instances s !! id) as [inst|] eqn:E.
  - rewrite (destroy_instance_present _ _ _ _ E).
    unfold destroy_finally, destroy_mark. rewrite lookup_update_eq, E. simpl.
    unfold set_stats, set_instances, update_instance. simpl.
    by rewrite delete_alter_eq.
  - rewrite destroy_instance_absent by done.
    unfold destroy_finally, destroy_mark. rewrite lookup_update_eq, E. simpl.
    unfold update_instance, set_instances. destruct s; simpl in *. f_equal.
    apply map_eq. intros j. destruct (decide (id = j)) as [->|Hne].
    + by rewrite lookup_alter_eq, E.
    + by rewrite lookup_alter_ne.
Qed.

Lemma destroy_mark_twice id s : destroy_mark id (destroy_mark id s) = destroy_mark id s.
Proof.
  unfold destroy_mark, update_instance, set_instances. simpl. f_equal.
  apply map_eq. intros j. destruct (decide (id = j)) as [->|Hne].
  - rewrite !lookup_alter_eq. by destruct (instances s !! j).
  - by rewrite !lookup_alter_ne.
Qed.

Lemma lookup_destroy_instance_eq d id s :
  instances (_destroy_instance d id s) !! id = None.
Proof.
  destruct (instances s !! id) eqn:E.
  - rewrite (destroy_instance_present _ _ _ _ E). apply lookup_delete_eq.
  - by rewrite destroy_instance_absent.
Qed.
End Registry.

(** ** Pool manager arithmetic *)

(** C2.  In a pool-manager cycle the number of creation attempts launched
    is [min(needed, capacity_room, creation_room)] clamped at zero, with
    [needed = pool_size - (ready + creating + testing)],
    [capacity_room = max_pool_size - total_instances] and
    [creation_room = 128 - (creating + testing)]; these attempts are the
    only thing the cycle adds to the loop; none is launched when the
    active count equals the target; and right after [start] with target 2
    and maximum 4 exactly two are launched. *)
Theorem pool_cycle_launch_count (s : DockerScheduler) :
  let needed := pool_size s - (ready_count s + creating_count s + testing_count s) in
  let capacity_room := max_pool_size s - total_instances s in
  let creation_room := concurrent_creation_limit - (creating_count s + testing_count s) in
  Z.of_nat (launched s) = Z.max 0 (Z.min needed (Z.min capacity_room creation_room)) ∧
  (∀ ts w', step (mkWorld s PMSleeping ts) PoolCycle w' →
            sched w' = s ∧ tasks w' = ts ++ replicate (launched s) CreateScheduled) ∧
  (ready_count s + creating_count s + testing_count s = pool_size s → launched s = 0%nat) ∧
  (∀ t i now, launched (start (new_scheduler 2 4 t i now)) = 2%nat).
Proof.
  intros needed0 capacity_room creation_room.
  assert (actual_needed s =
          Z.min (Z.min needed0 capacity_room) (Z.max 0 creation_room)) as Ha by reflexivity.
  split; [|split; [|split]].
  - unfold launched. rewrite Ha. destruct (Z.ltb_spec 0 (Z.min (Z.min needed0 capacity_room)
                                                             (Z.max 0 creation_room))); lia.
  - intros ts w' H. inversion H; subst; split; reflexivity.
  - intros Hactive. unfold launched. rewrite Ha.
    assert (needed0 = 0) by (unfold needed0; lia).
    destruct (Z.ltb_spec 0 (Z.min (Z.min needed0 capacity_room) (Z.max 0 creation_room)));
      [lia | reflexivity].
  - intros. reflexivity.
Qed.

Lemma pool_cycle_launch_count_witness :
  let s := create_test_ok "a" 1 (create_env_ok "a" "e" "p" (create_begin "a" 0
             (start (new_scheduler 1 4 900 1200 0)))) in
  ready_count s + creating_count s + testing_count s = pool_size s ∧ launched s = 0%nat.
Proof.
  split; [reflexivity|].
  apply (pool_cycle_launch_count
           (create_test_ok "a" 1 (create_env_ok "a" "e" "p" (create_begin "a" 0
              (start (new_scheduler 1 4 900 1200 0)))))).
  reflexivity.
Defined.

(** ** Release and destruction *)

(** C6.  [release(instance_id, client_id)] on an unknown id, or with a
    client that is not the record's owner, returns false and leaves the
    scheduler exactly as it was; otherwise it returns true and the record
    is gone (removed and counted as destroyed), whatever the provisioner
    answered. *)
Theorem release_instance_spec (d : string → DeleteOutcome) (id : string)
    (client : option string) (s : DockerScheduler) :
  match instances s !! id with
  | None => release_instance d id client s = (s, false)
  | Some inst =>
      if decide (client_id inst = client)
      then release_instance d id client s =
             (set_stats (incr_destroyed (stats s))
                        (set_instances (delete id (instances s)) s), true)
      else release_instance d id client s = (s, false)
  end.
Proof.
  unfold release_instance, release_permitted.
  destruct (instances s !! id) as [inst|] eqn:E; [|done].
  destruct (decide (client_id inst = client)) as [Heq|Hne].
  - rewrite bool_decide_eq_true_2 by done.
    by rewrite (destroy_instance_present _ _ _ _ E).
  - by rewrite bool_decide_eq_false_2.
Qed.

(** C7.  [destroy(id)] changes nothing on an id that is not registered;
    run twice it leaves what one run leaves; on a registered id it
    removes the record and adds one to [total_destroyed] for every answer
    of the provisioner, failures included; and two calls on the same id,
    whether the second starts while the first is still waiting for the
    provisioner or after the first has cleared the record, leave together
    what a single call leaves. *)
Theorem destroy_instance_idempotent (d d' : string → DeleteOutcome) (id : string)
    (s : DockerScheduler) :
  (instances s !! id = None → _destroy_instance d id s = s) ∧
  _destroy_instance d' id (_destroy_instance d id s) = _destroy_instance d id s ∧
  (is_Some (instances s !! id) →
     instances (_destroy_instance d id s) = delete id (instances s) ∧
     total_destroyed (stats (_destroy_instance d id s)) = total_destroyed (stats s) + 1 ∧
     ready_queue (_destroy_instance d id s) = ready_queue s) ∧
  destroy_finally id (destroy_finally id (destroy_mark id (destroy_mark id s))) =
    _destroy_instance d id s ∧
  destroy_finally id (destroy_mark id (destroy_finally id (destroy_mark id s))) =
    _destroy_instance d id s.
Proof.
  split; [|split; [|split; [|split]]].
  - apply destroy_instance_absent.
  - apply destroy_instance_absent, lookup_destroy_instance_eq.
  - intros [inst E]. by rewrite (destroy_instance_present _ _ _ _ E).
  - rewrite destroy_mark_twice, (destroy_instance_segments d).
    apply destroy_finally_absent, lookup_destroy_finally_eq.
  - rewrite <- (destroy_instance_segments d id s).
    rewrite <- (destroy_instance_segments d' id (_destroy_instance d id s)).
    apply destroy_instance_absent, lookup_destroy_instance_eq.
Qed.

Lemma destroy_instance_idempotent_witness :
  let d := fun _ : string => DeleteRaised "boom" in
  let s := create_env_ok "a" "e" "p" (create_begin "a" 0 (start (new_scheduler 1 4 900 1200 0))) in
  is_Some (instances s !! "a") ∧
  instances (_destroy_instance d "a" s) = delete "a" (instances s) ∧
  total_destroyed (stats (_destroy_instance d "a" s)) = total_destroyed (stats s) + 1 ∧
  ready_queue (_destroy_instance d "a" s) = ready_queue s.
Proof.
  split; [by eexists|].
  apply (destroy_instance_idempotent (fun _ => DeleteRaised "boom") (fun _ => DeleteOk) "a"
           (create_env_ok "a" "e" "p" (create_begin "a" 0 (start (new_scheduler 1 4 900 1200 0))))).
  by eexists.
Defined.

(** C10.  The ownership test of [release] is equality with the record's
    [client_id]: on a record that was never allocated ([client_id] is
    [None]) every string client is refused and nothing changes, while
    [None] as client passes the test, the instance is destroyed and
    [True] is returned. *)
Theorem release_never_allocated (d : string → DeleteOutcome) (id : string)
    (s : DockerScheduler) (inst : DockerInstance) :
  instances s !! id = Some inst →
  client_id inst = None →
  (∀ c : string, release_instance d id (Some c) s = (s, false)) ∧
  snd (release_instance d id None s) = true ∧
  instances (fst (release_instance d id None s)) = delete id (instances s) ∧
  total_destroyed (stats (fst (release_instance d id None s))) = total_destroyed (stats s) + 1.
Proof.
  intros E Hc. unfold release_instance, release_permitted. rewrite E, Hc. split.
  - intros c. by rewrite bool_decide_eq_false_2.
  - rewrite bool_decide_eq_true_2 by done. simpl.
    by rewrite (destroy_instance_present _ _ _ _ E).
Qed.

Lemma release_never_allocated_witness :
  let d := fun _ : string => DeleteOk in
  let s := create_test_ok "a" 1 (create_env_ok "a" "e" "p" (create_begin "a" 0
             (start (new_scheduler 1 4 900 1200 0)))) in
  (∀ c : string, release_instance d "a" (Some c) s = (s, false)) ∧
  snd (release_instance d "a" None s) = true ∧
  instances (fst (release_instance d "a" None s)) = delete "a" (instances s) ∧
  total_destroyed (stats (fst (release_instance d "a" None s))) = total_destroyed (stats s) + 1.
Proof.
  apply (release_never_allocated (fun _ => DeleteOk) "a"
           (create_test_ok "a" 1 (create_env_ok "a" "e" "p" (create_begin "a" 0
              (start (new_scheduler 1 4 900 1200 0)))))
           (mkInstance "a" "e" "p" READY 0 None None (Some 1) ""));
    reflexivity.
Defined.

(** ** Health ejection *)

Section Eject.
Implicit Types (q temp : list string) (id : string).

Lemma refill_app temp q : refill temp q = q ++ temp.
Proof.
  revert q. induction temp as [|x temp IH]; intros q; simpl.
  - by rewrite app_nil_r.
  - rewrite IH. by rewrite <- app_assoc.
Qed.

Lemma drain_removed id q temp : drain id q true temp = temp ++ q.
Proof.
  revert temp. induction q as [|x q IH]; intros temp; simpl.
  - by rewrite app_nil_r.
  - rewrite andb_false_r, IH. by rewrite <- app_assoc.
Qed.

Lemma drain_not_in id q temp : id ∉ q → drain id q false temp = temp ++ q.
Proof.
  revert temp. induction q as [|x q IH]; intros temp Hq; simpl.
  - by rewrite app_nil_r.
  - apply not_elem_of_cons in Hq as [Hx Hq].
    rewrite bool_decide_eq_false_2 by done. simpl.
    rewrite IH by done. by rewrite <- app_assoc.
Qed.

Lemma drain_first id q1 q2 temp :
  id ∉ q1 → drain id (q1 ++ id :: q2) false temp = temp ++ q1 ++ q2.
Proof.
  revert temp. induction q1 as [|x q1 IH]; intros temp Hq; simpl.
  - rewrite bool_decide_eq_true_2 by done. simpl. apply drain_removed.
  - apply not_elem_of_cons in Hq as [Hx Hq].
    rewrite bool_decide_eq_false_2 by done. simpl.
    rewrite IH by done. by rewrite <- app_assoc.
Qed.

Lemma eject_not_in id s : id ∉ ready_queue s → eject id s = s.
Proof.
  intros H. unfold eject. rewrite refill_app, drain_not_in by done.
  by destruct s.
Qed.

Lemma eject_first id q1 q2 s :
  ready_queue s = q1 ++ id :: q2 → id ∉ q1 →
  eject id s = set_ready_queue (q1 ++ q2) s.
Proof.
  intros E H. unfold eject. by rewrite refill_app, E, drain_first.
Qed.

Lemma eject_instances id s : instances (eject id s) = instances s.
Proof. reflexivity. Qed.

Lemma eject_stats id s : stats (eject id s) = stats s.
Proof. reflexivity. Qed.

(** What is left after the ejection was in the queue before. *)
Lemma eject_subseteq id s : ready_queue (eject id s) ⊆ ready_queue s.
Proof.
  destruct (decide (id ∈ ready_queue s)) as [Hin|Hnin].
  - apply list_elem_of_split_l in Hin as (q1 & q2 & E & Hq1).
    rewrite (eject_first _ _ _ _ E Hq1), E. simpl.
    intros x. rewrite !elem_of_app, elem_of_cons. tauto.
  - by rewrite eject_not_in.
Qed.
End Eject.

(** C8.  When the health probe of an instance fails, the handler takes
    the first occurrence of its id out of the ready queue, keeping the
    order of the rest (so the id is gone from a duplicate-free queue),
    and destroys the instance: the record leaves the registry and is
    counted, whatever its status.  If the id had already been dequeued
    and the record is ALLOCATED by then, the queue is left as it is and
    the ALLOCATED record is destroyed all the same. *)
Theorem unhealthy_instance_ejected (d : string → DeleteOutcome) (id : string)
    (s : DockerScheduler) :
  let s' := _handle_unhealthy_instance d id s in
  (∀ p now, probe_passed p = false → _check_instance_health d id p now s = s') ∧
  (id ∉ ready_queue s → ready_queue s' = ready_queue s) ∧
  (∀ q1 q2, ready_queue s = q1 ++ id :: q2 → id ∉ q1 → ready_queue s' = q1 ++ q2) ∧
  (NoDup (ready_queue s) → id ∉ ready_queue s') ∧
  instances s' !! id = None ∧
  (∀ id', id' ≠ id → instances s' !! id' = instances s !! id') ∧
  (is_Some (instances s !! id) →
     total_destroyed (stats s') = total_destroyed (stats s) + 1) ∧
  (∀ inst, instances s !! id = Some inst → status inst = ALLOCATED →
           id ∉ ready_queue s →
           s' = set_stats (incr_destroyed (stats s))
                          (set_instances (delete id (instances s)) s)).
Proof.
  intros s'.
  assert (ready_queue s' = ready_queue (eject id s)) as Hq.
  { unfold s', _handle_unhealthy_instance.
    destruct (instances (eject id s) !! id) eqn:E.
    - by rewrite (destroy_instance_present _ _ _ _ E).
    - by rewrite destroy_instance_absent. }
  split; [|split; [|split; [|split; [|split; [|split; [|split]]]]]].
  - intros p now Hp. unfold _check_instance_health. by rewrite Hp.
  - intros Hnin. by rewrite Hq, eject_not_in.
  - intros q1 q2 E Hq1. by rewrite Hq, (eject_first _ _ _ _ E Hq1).
  - intros Hnd. rewrite Hq. destruct (decide (id ∈ ready_queue s)) as [Hin|Hnin].
    + apply list_elem_of_split_l in Hin as (q1 & q2 & E & Hq1).
      rewrite (eject_first _ _ _ _ E Hq1). simpl.
      rewrite E in Hnd. apply NoDup_app in Hnd as (_ & _ & Hnd).
      apply NoDup_cons in Hnd as [Hq2 _].
      rewrite elem_of_app. tauto.
    + by rewrite eject_not_in.
  - apply lookup_destroy_instance_eq.
  - intros id' Hne. unfold s', _handle_unhealthy_instance.
    destruct (instances (eject id s) !! id) eqn:E.
    + rewrite (destroy_instance_present _ _ _ _ E). simpl. by rewrite lookup_delete_ne.
    + by rewrite destroy_instance_absent.
  - intros [inst E]. unfold s', _handle_unhealthy_instance.
    by rewrite (destroy_instance_present _ _ (eject id s) inst E).
  - intros inst E _ Hnin. unfold s', _handle_unhealthy_instance.
    rewrite eject_not_in by done. by apply destroy_instance_present with inst.
Qed.

Lemma unhealthy_instance_ejected_witness :
  let d := fun _ : string => DeleteOk in
  let s0 := create_test_ok "a" 1 (create_env_ok "a" "e" "p" (create_begin "a" 0
              (start (new_scheduler 1 4 900 1200 0)))) in
  let s := alloc_sched (allocate_instance true None "worker" 2 s0) in
  status <$> instances s !! "a" = Some ALLOCATED ∧
  ready_queue s = [] ∧
  _handle_unhealthy_instance d "a" s =
    set_stats (incr_destroyed (stats s)) (set_instances (delete "a" (instances s)) s).
Proof.
  split; [reflexivity|]. split; [reflexivity|].
  eapply (unhealthy_instance_ejected (fun _ => DeleteOk) "a"
            (alloc_sched (allocate_instance true None "worker" 2
               (create_test_ok "a" 1 (create_env_ok "a" "e" "p" (create_begin "a" 0
                  (start (new_scheduler 1 4 900 1200 0)))))))).
  - reflexivity.
  - reflexivity.
  - apply not_elem_of_nil.
Defined.

(** ** Allocation *)

(** C4.  An [allocate] call that dequeues an id whose record is missing
    or not READY puts the id back at the end of the queue (at once on
    the scheduler's own loop, as a submitted [put] from another loop),
    returns [None] and touches nothing else, even when READY instances
    are waiting behind it; and whenever a call does return an instance,
    the record of the dequeued id was READY when it was checked and is
    handed over as ALLOCATED to that client. *)
Theorem allocate_rechecks_ready (same_loop : bool) (client : string) (now : Z)
    (s : DockerScheduler) (id : string) (rest : list string) :
  ready_queue s = id :: rest →
  let a := allocate_instance same_loop None client now s in
  (match instances s !! id with Some inst => status inst ≠ READY | None => True end →
     alloc_result a = None ∧
     alloc_sched a = set_ready_queue (if same_loop then rest ++ [id] else rest) s ∧
     alloc_submitted a = if same_loop then [] else [id]) ∧
  (∀ g, alloc_result a = Some g →
        ∃ inst, instances s !! id = Some inst ∧ status inst = READY ∧
                g = with_allocation now (Some client) (with_status ALLOCATED inst) ∧
                instances (alloc_sched a) !! id = Some g ∧
                ready_queue (alloc_sched a) = rest).
Proof.
  intros Hq a.
  assert (a = allocate_dequeued same_loop client now id (set_ready_queue rest s)) as Ha.
  { unfold a, allocate_instance, queue_get. by rewrite Hq. }
  rewrite Ha. unfold allocate_dequeued, requeue. simpl. split.
  - intros Hnot. destruct (instances s !! id) as [inst|] eqn:E.
    + destruct (decide (status inst = READY)); [done|].
      destruct same_loop; done.
    + destruct same_loop; done.
  - intros g Hg. destruct (instances s !! id) as [inst|] eqn:E.
    + destruct (decide (status inst = READY)) as [Hr|Hr].
      * simpl in Hg. injection Hg as <-. exists inst. repeat split; [done|].
        simpl. by rewrite lookup_alter_eq, E.
      * destruct same_loop; done.
    + destruct same_loop; done.
Qed.

Lemma allocate_rechecks_ready_witness :
  let s0 := create_test_ok "b" 3 (create_env_ok "b" "e2" "p2" (create_begin "b" 2
           (create_test_ok "a" 1 (create_env_ok "a" "e" "p" (create_begin "a" 0
              (start (new_scheduler 2 4 900 1200 0))))))) in
  let s := destroy_mark "a" s0 in
  let a := allocate_instance true None "worker" 4 s in
  ready_queue s = ["a"; "b"] ∧
  alloc_result a = None ∧
  alloc_sched a = set_ready_queue ["b"; "a"] s ∧
  alloc_submitted a = [].
Proof.
  split; [reflexivity|].
  apply (allocate_rechecks_ready true "worker" 4
           (destroy_mark "a"
              (create_test_ok "b" 3 (create_env_ok "b" "e2" "p2" (create_begin "b" 2
                 (create_test_ok "a" 1 (create_env_ok "a" "e" "p" (create_begin "a" 0
                    (start (new_scheduler 2 4 900 1200 0)))))))))
           "a" ["b"]).
  - reflexivity.
  - vm_compute. discriminate.
Defined.



(** ** The event loop: counting tasks *)

Section Counting.
Implicit Types (p : Task → bool) (ts : list Task).

Lemma count_cons p t ts :
  count p (t :: ts) = ((if p t then 1 else 0) + count p ts)%nat.
Proof. reflexivity. Qed.

Lemma count_app p ts1 ts2 : count p (ts1 ++ ts2) = (count p ts1 + count p ts2)%nat.
Proof. induction ts1 as [|t ts1 IH]; simpl; [done|]. rewrite IH. lia. Qed.

Lemma count_zero p ts : count p ts = 0%nat ↔ Forall (fun t => p t = false) ts.
Proof.
  induction ts as [|t ts IH]; simpl.
  - split; [constructor|done].
  - rewrite Forall_cons, <- IH. destruct (p t); split; intros; try lia; intuition (try discriminate; lia).
Qed.

Lemma count_pos p ts : (0 < count p ts)%nat → ∃ t, t ∈ ts ∧ p t = true.
Proof.
  induction ts as [|t ts IH]; simpl; [lia|].
  destruct (p t) eqn:E.
  - intros _. exists t. split; [left|done].
  - intros H. destruct IH as (t' & Hin & Hp); [lia|]. exists t'. split; [by right|done].
Qed.

Lemma count_le p q ts :
  (∀ t, p t = true → q t = true) → (count p ts ≤ count q ts)%nat.
Proof.
  intros Hpq. induction ts as [|t ts IH]; simpl; [lia|].
  destruct (p t) eqn:E; [rewrite (Hpq _ E)|destruct (q t)]; lia.
Qed.

Lemma count_replicate p n t :
  count p (replicate n t) = if p t then n else 0%nat.
Proof. induction n as [|n IH]; simpl; [by destruct (p t)|]. rewrite IH. by destruct (p t). Qed.

Lemma count_fmap_false {A} p (f : A → Task) (l : list A) :
  (∀ x, p (f x) = false) → count p (f <$> l) = 0%nat.
Proof. intros H. induction l as [|x l IH]; csimpl; [done|]. by rewrite H, IH. Qed.

Lemma count_survivors_le p ts : (count p (survivors ts) ≤ count p ts)%nat.
Proof.
  unfold survivors. induction ts as [|t ts IH]; simpl; [lia|].
  rewrite filter_cons. destruct (decide (creation_child t = false)); simpl; destruct (p t); lia.
Qed.

Lemma count_survivors_child p ts :
  (∀ t, p t = true → creation_child t = true) → count p (survivors ts) = 0%nat.
Proof.
  intros H. unfold survivors. induction ts as [|t ts IH]; simpl; [done|].
  rewrite filter_cons. destruct (decide (creation_child t = false)) as [E|E]; simpl; [|done].
  destruct (p t) eqn:Ep; [|done]. rewrite (H _ Ep) in E. done.
Qed.

Lemma survivors_no_child ts : Forall (fun t => creation_child t = false) (survivors ts).
Proof.
  unfold survivors. apply Forall_forall. intros t Ht.
  by apply list_elem_of_filter in Ht as [? _].
Qed.

Lemma survivors_subseteq ts : survivors ts ⊆ ts.
Proof. unfold survivors. intros t Ht. by apply list_elem_of_filter in Ht as [_ ?]. Qed.

Lemma creating_watches id t : creating id t = true → watches id t = true.
Proof. by destruct t. Qed.

Lemma creating_child id t : creating id t = true → creation_child t = true.
Proof. by destruct t. Qed.

Lemma scheduled_child t : is_scheduled t = true → creation_child t = true.
Proof. by destruct t. Qed.

Lemma holds_watches id t : holds id t = false → watches id t = false.
Proof. by destruct t. Qed.
End Counting.

(** ** The event loop: what a suspended coroutine may rely on *)

Section Frames.
Implicit Types (s : DockerScheduler) (t : Task) (id : string).

Lemma keeps_refl s : keeps s s.
Proof. intros id r' H. eauto. Qed.

Lemma keeps_trans s1 s2 s3 : keeps s1 s2 → keeps s2 s3 → keeps s1 s3.
Proof.
  intros H12 H23 id r3 H3. destruct (H23 _ _ H3) as (r2 & H2 & <- & <-).
  apply (H12 _ _ H2).
Qed.

Lemma keeps_instances s s' : instances s' = instances s → keeps s s'.
Proof. intros E id r' H. rewrite E in H. eauto. Qed.

Lemma keeps_destroy_finally id s : keeps s (destroy_finally id s).
Proof.
  intros i r' H. destruct (decide (id = i)) as [->|Hne].
  - by rewrite lookup_destroy_finally_eq in H.
  - rewrite lookup_destroy_finally_ne in H by done. eauto.
Qed.

Lemma keeps_update f id s :
  (∀ r, status (f r) = status r ∧ client_id (f r) = client_id r) →
  keeps s (update_instance f id s).
Proof.
  intros Hf i r' H. destruct (decide (id = i)) as [->|Hne].
  - rewrite lookup_update_eq in H. destruct (instances s !! i) as [r|]; [|done].
    injection H as <-. exists r. destruct (Hf r) as [-> ->]. done.
  - rewrite lookup_update_ne in H by done. eauto.
Qed.

Lemma keeps_unwind ts s : keeps s (unwind ts s).
Proof.
  revert s. induction ts as [|t ts IH]; intros s; simpl; [apply keeps_refl|].
  destruct t as [| | |k i|k i| | |]; try apply IH.
  destruct k; try apply IH.
  eapply keeps_trans; [apply keeps_destroy_finally|apply IH].
Qed.

Lemma expects_watches t id st : expects t = Some (id, st) → watches id t = true.
Proof. destruct t; simpl; intros [= <- <-]; by apply bool_decide_eq_true_2. Qed.

Lemma task_ok_frame s s' t :
  (∀ id, watches id t = true → ∀ r', instances s' !! id = Some r' →
         ∃ r, instances s !! id = Some r ∧ status r = status r') →
  task_ok s t → task_ok s' t.
Proof.
  unfold task_ok. destruct (expects t) as [[id st]|] eqn:E; [|done].
  intros H Hok r' Hr'. destruct (H id (expects_watches _ _ _ E) _ Hr') as (r & Hr & <-).
  by apply Hok.
Qed.

Lemma task_ok_keeps s s' t : keeps s s' → task_ok s t → task_ok s' t.
Proof.
  intros Hk. apply task_ok_frame. intros id _ r' Hr'.
  destruct (Hk _ _ Hr') as (r & ? & ? & _). eauto.
Qed.

Lemma task_ok_elsewhere s s' t id :
  watches id t = false →
  (∀ id', id' ≠ id → instances s' !! id' = instances s !! id') →
  task_ok s t → task_ok s' t.
Proof.
  intros Hw Hs. apply task_ok_frame. intros i Hi r' Hr'.
  assert (i ≠ id) as Hne by (intros ->; congruence).
  rewrite (Hs _ Hne) in Hr'. eauto.
Qed.

Lemma task_ok_no_expect s t : expects t = None → task_ok s t.
Proof. unfold task_ok. by intros ->. Qed.

(** A record that some creation still works on is CREATING or TESTING. *)
Lemma creating_status s ts id r :
  Forall (task_ok s) ts → (0 < count (creating id) ts)%nat →
  instances s !! id = Some r → status r = CREATING ∨ status r = TESTING.
Proof.
  intros Hok Hc Hr. apply count_pos in Hc as (t & Hin & Ht).
  rewrite Forall_forall in Hok. specialize (Hok _ Hin).
  destruct t; simpl in Ht; try discriminate;
    apply bool_decide_eq_true_1 in Ht as ->; unfold task_ok in Hok; simpl in Hok;
    rewrite (Hok _ Hr); auto.
Qed.
End Frames.

Ltac split_tasks :=
  repeat match goal with
  | H : Forall _ (_ ++ _) |- _ => apply Forall_app in H as [? ?]
  | H : Forall _ (_ :: _) |- _ => apply Forall_cons in H as [? ?]
  | |- Forall _ (_ ++ _) => apply Forall_app; split
  | |- Forall _ (_ :: _) => apply Forall_cons; split
  | |- Forall _ [] => constructor
  end.

Lemma step_children w l w' :
  tasks_inv w → step w l w' →
  pool_manager w' ≠ PMGathering → Forall (fun t => creation_child t = false) (tasks w').
Proof.
  intros [Hch Hsh _ _] Hstep. inversion Hstep; subst; simpl in *; intros Hpm;
    try (specialize (Hch Hpm); split_tasks; simpl in *; by try destruct k).
  - destruct (launched s); [|done]. simpl. rewrite app_nil_r. by apply Hch.
  - done.
  - split_tasks; [apply survivors_no_child|done].
  - specialize (Hch Hpm). split_tasks; try done.
    apply Forall_fmap, Forall_forall. done.
Qed.

Lemma step_shutdown w l w' :
  tasks_inv w → step w l w' →
  ShutdownAwaitCancel ∈ tasks w' → pool_manager w' = PMCancelled.
Proof.
  intros [Hch Hsh _ _] Hstep. inversion Hstep; subst; simpl in *; try done;
    rewrite ?elem_of_app, ?elem_of_cons, ?elem_of_nil in *;
    try (intros Hin; apply Hsh; intuition (try discriminate; eauto; fail)).
  - intros [Hin|Hin]; [by specialize (Hsh Hin)|].
    by apply elem_of_replicate in Hin as [? _].
  - intros Hin. by specialize (Hsh Hin).
Qed.

Section Watchers.
Implicit Types (t : Task) (ts : list Task) (id : string).

Lemma sole_watcher ts1 t ts2 id :
  count (watches id) (ts1 ++ t :: ts2) = 1%nat → watches id t = true →
  Forall (fun t' => watches id t' = false) (ts1 ++ ts2).
Proof.
  rewrite count_app, count_cons. intros Hc Hw. rewrite Hw in Hc.
  apply count_zero. rewrite count_app. lia.
Qed.

Lemma creator_alone w ts1 t ts2 id :
  tasks_inv w → tasks w = ts1 ++ t :: ts2 → creating id t = true →
  Forall (fun t' => watches id t' = false) (ts1 ++ ts2).
Proof.
  intros Hinv E Ht. destruct (inv_creator _ Hinv id) as [Hc _].
  - rewrite E, count_app, count_cons, Ht. lia.
  - rewrite E in Hc. eapply sole_watcher; [done|]. by apply creating_watches.
Qed.

Lemma no_creator_beside w ts1 t ts2 id :
  tasks_inv w → tasks w = ts1 ++ t :: ts2 →
  watches id t = true → creating id t = false →
  Forall (fun t' => creating id t' = false) (ts1 ++ ts2).
Proof.
  intros Hinv E Hw Hc. apply count_zero.
  destruct (decide (count (creating id) (ts1 ++ ts2) = 0%nat)) as [|Hpos]; [done|].
  destruct (inv_creator _ Hinv id) as [H1 _].
  - rewrite E, count_app, count_cons. rewrite count_app in Hpos. lia.
  - rewrite E in H1. apply sole_watcher in H1; [|done].
    apply count_zero in H1.
    pose proof (count_le (creating id) (watches id) (ts1 ++ ts2) (creating_watches id)). lia.
Qed.

Lemma Forall_task_ok_keeps s s' ts :
  keeps s s' → Forall (task_ok s) ts → Forall (task_ok s') ts.
Proof.
  intros Hk Hok. eapply Forall_impl; [exact Hok|]. intros t. by apply task_ok_keeps.
Qed.

Lemma Forall_task_ok_elsewhere s s' ts id :
  (∀ id', id' ≠ id → instances s' !! id' = instances s !! id') →
  Forall (fun t => watches id t = false) ts →
  Forall (task_ok s) ts → Forall (task_ok s') ts.
Proof.
  intros Hs Hw Hok. rewrite Forall_forall in *. intros t Ht.
  eapply task_ok_elsewhere; eauto.
Qed.
End Watchers.

Lemma Forall_rest {A} (P : A → Prop) (l1 l2 : list A) (x : A) :
  Forall P (l1 ++ x :: l2) → Forall P (l1 ++ l2).
Proof. rewrite !Forall_app, Forall_cons. tauto. Qed.

Lemma Forall_replace {A} (P : A → Prop) (l1 l2 : list A) (y : A) :
  Forall P (l1 ++ l2) → P y → Forall P (l1 ++ y :: l2).
Proof. rewrite !Forall_app, Forall_cons. tauto. Qed.

Lemma allocate_dequeued_instances client now id s :
  instances (alloc_sched (allocate_dequeued true client now id s)) = instances s ∨
  (∃ inst, instances s !! id = Some inst ∧ status inst = READY ∧
     instances (alloc_sched (allocate_dequeued true client now id s)) =
       alter (fun i => with_allocation now (Some client) (with_status ALLOCATED i))
             id (instances s)).
Proof.
  unfold allocate_dequeued, requeue.
  destruct (instances s !! id) as [inst|] eqn:E; [|by left].
  destruct (decide (status inst = READY)); [|by left].
  right. by exists inst.
Qed.

Lemma step_status w l w' :
  tasks_inv w → step w l w' → Forall (task_ok (sched w')) (tasks w').
Proof.
  intros Hinv Hstep. pose proof (inv_status _ Hinv) as Hok.
  inversion Hstep; subst; simpl in *.
  - apply Forall_app. split; [done|]. apply Forall_forall.
    intros t [-> _]%elem_of_replicate. done.
  - done.
  - (* create_start *)
    match goal with H : fresh _ _ |- _ => destruct H as (Hnone & _ & Hholds) end.
    simpl in *. apply Forall_rest in Hok as Hrest. apply Forall_rest in Hholds.
    apply Forall_replace.
    + apply (Forall_task_ok_elsewhere s _ _ id); [| |exact Hrest].
      * intros id' Hne. simpl. by rewrite lookup_insert_ne.
      * eapply Forall_impl; [exact Hholds|]. intros t. apply holds_watches.
    + intros r. simpl. rewrite lookup_insert_eq. by intros [= <-].
  - (* env ok *)
    pose proof (creator_alone _ t1 (CreateAwaitEnv id) t2 id Hinv eq_refl) as Halone.
    simpl in Halone. rewrite bool_decide_eq_true_2 in Halone by done.
    specialize (Halone eq_refl). apply Forall_replace.
    + apply (Forall_task_ok_elsewhere s _ _ id); [|exact Halone|by eapply Forall_rest].
      intros id' Hne. simpl. by rewrite lookup_alter_ne.
    + intros r. simpl. rewrite lookup_alter_eq.
      destruct (instances s !! id); simpl; [|done]. by intros [= <-].
  - (* env failed *)
    pose proof (creator_alone _ t1 (CreateAwaitEnv id) t2 id Hinv eq_refl) as Halone.
    simpl in Halone. rewrite bool_decide_eq_true_2 in Halone by done.
    specialize (Halone eq_refl). apply Forall_replace; [|done].
    apply (Forall_task_ok_elsewhere s _ _ id); [|exact Halone|by eapply Forall_rest].
    intros id' Hne. simpl. by rewrite lookup_alter_ne.
  - (* test ok *)
    pose proof (creator_alone _ t1 (CreateAwaitTest id) t2 id Hinv eq_refl) as Halone.
    simpl in Halone. rewrite bool_decide_eq_true_2 in Halone by done.
    specialize (Halone eq_refl).
    apply (Forall_task_ok_elsewhere s _ _ id); [|exact Halone|by eapply Forall_rest].
    intros id' Hne. simpl. by rewrite lookup_alter_ne.
  - (* test failed *)
    pose proof (creator_alone _ t1 (CreateAwaitTest id) t2 id Hinv eq_refl) as Halone.
    simpl in Halone. rewrite bool_decide_eq_true_2 in Halone by done.
    specialize (Halone eq_refl). apply Forall_replace; [|done].
    apply (Forall_task_ok_elsewhere s _ _ id); [|exact Halone|by eapply Forall_rest].
    intros id' Hne. simpl. by rewrite lookup_alter_ne.
  - by eapply Forall_rest.
  - (* destroy mark *)
    pose proof (no_creator_beside _ t1 (DestroyCall k id) t2 id Hinv eq_refl) as Hnc.
    simpl in Hnc. rewrite bool_decide_eq_true_2 in Hnc by done.
    specialize (Hnc eq_refl eq_refl).
    apply Forall_rest in Hok as Hrest. apply Forall_replace.
    + rewrite Forall_forall in *. intros t Ht. specialize (Hrest _ Ht). specialize (Hnc _ Ht).
      unfold task_ok in *. destruct t as [|i|i|k' i|k' i|i|c i|]; simpl in *; try done.
      * apply bool_decide_eq_false_1 in Hnc. intros r. rewrite lookup_alter_ne by done. auto.
      * apply bool_decide_eq_false_1 in Hnc. intros r. rewrite lookup_alter_ne by done. auto.
      * intros r. destruct (decide (id = i)) as [->|Hne].
        -- rewrite lookup_alter_eq. destruct (instances s !! i); simpl; [|done].
           by intros [= <-].
        -- rewrite lookup_alter_ne by done. auto.
    + intros r. simpl. rewrite lookup_alter_eq.
      destruct (instances s !! id); simpl; [|done]. by intros [= <-].
  - eapply Forall_task_ok_keeps; [apply keeps_destroy_finally|by eapply Forall_rest].
  - apply Forall_app. split; [done|]. by repeat constructor.
  - eapply Forall_task_ok_keeps; [|by eapply Forall_rest].
    apply keeps_update. by intros r.
  - apply Forall_replace; [|done].
    eapply Forall_task_ok_keeps; [|by eapply Forall_rest]. by apply keeps_instances.
  - apply Forall_app. split; [|by repeat constructor].
    eapply Forall_task_ok_keeps; [|done]. by apply keeps_instances.
  - (* alloc finish *)
    apply Forall_rest in Hok.
    destruct (allocate_dequeued_instances client now id s) as [E|(inst & Hl & Hr & E)].
    + eapply Forall_task_ok_keeps; [|done]. by apply keeps_instances.
    + eapply Forall_impl; [exact Hok|]. intros t Ht. unfold task_ok in *.
      destruct (expects t) as [[i st]|] eqn:Et; [|done].
      intros r. rewrite E. destruct (decide (id = i)) as [->|Hne].
      * specialize (Ht _ Hl). destruct t; simpl in Et; try discriminate;
          injection Et as <- <-; congruence.
      * rewrite lookup_alter_ne by done. auto.
  - done.
  - apply Forall_app. split; [done|]. by repeat constructor.
  - apply Forall_app. split; [|by repeat constructor].
    eapply Forall_task_ok_keeps.
    + eapply keeps_trans; [|apply keeps_unwind]. by apply keeps_instances.
    + rewrite Forall_forall in *. intros t Ht. by apply Hok, survivors_subseteq.
  - apply Forall_rest in Hok. apply Forall_app in Hok as [H1 H2].
    apply Forall_app. split; [done|]. apply Forall_app. split; [done|].
    apply Forall_fmap, Forall_forall. done.
Qed.

Ltac counts :=
  rewrite ?count_app, ?count_cons in *; cbn [creating watches holds] in *.

Lemma client_frame s s' id :
  (∀ r', instances s' !! id = Some r' →
         ∃ r, instances s !! id = Some r ∧ client_id r = client_id r') →
  (∀ r, instances s !! id = Some r → client_id r = None) →
  ∀ r', instances s' !! id = Some r' → client_id r' = None.
Proof. intros H Hs r' Hr'. destruct (H _ Hr') as (r & Hr & <-). eauto. Qed.

Lemma client_keeps s s' id :
  keeps s s' →
  (∀ r, instances s !! id = Some r → client_id r = None) →
  ∀ r', instances s' !! id = Some r' → client_id r' = None.
Proof.
  intros Hk. apply client_frame. intros r' Hr'.
  destruct (Hk _ _ Hr') as (r & ? & _ & ?). eauto.
Qed.

Lemma client_alter (f : DockerInstance → DockerInstance)
    (m : gmap string DockerInstance) id id0 :
  (∀ r, client_id (f r) = client_id r) →
  (∀ r, m !! id0 = Some r → client_id r = None) →
  ∀ r', alter f id m !! id0 = Some r' → client_id r' = None.
Proof.
  intros Hf Hm r'. destruct (decide (id = id0)) as [->|Hne].
  - rewrite lookup_alter_eq. destruct (m !! id0) as [r|] eqn:E; [|done].
    simpl. intros [= <-]. rewrite Hf. by apply Hm.
  - rewrite lookup_alter_ne by done. apply Hm.
Qed.

Lemma count_creating_le_watches id ts :
  (count (creating id) ts ≤ count (watches id) ts)%nat.
Proof. apply count_le, creating_watches. Qed.

Lemma step_creator w l w' :
  tasks_inv w → step w l w' →
  ∀ id0, (0 < count (creating id0) (tasks w'))%nat →
    count (watches id0) (tasks w') = 1%nat ∧
    ∀ r, instances (sched w') !! id0 = Some r → client_id r = None.
Proof.
  intros Hinv Hstep id0. pose proof (inv_creator _ Hinv id0) as Hcr.
  pose proof (inv_status _ Hinv) as Hok.
  inversion Hstep; subst; simpl in *.
  - (* pool cycle *)
    rewrite !count_app, !count_replicate. simpl. rewrite !Nat.add_0_r. done.
  - done.
  - (* create start *)
    match goal with H : fresh _ _ |- _ => destruct H as (Hnone & _ & Hholds) end.
    simpl in *. apply Forall_rest in Hholds.
    assert (count (watches id) (t1 ++ t2) = 0%nat) as Hw0.
    { apply count_zero. eapply Forall_impl; [exact Hholds|]. intros t. apply holds_watches. }
    pose proof (count_creating_le_watches id (t1 ++ t2)) as Hle.
    counts. case_bool_decide as Hid.
    + subst id0. intros _. split; [lia|]. intros r. rewrite lookup_insert_eq. by intros [= <-].
    + intros Hpos. destruct Hcr as [Hc Hcl]; [lia|]. split; [lia|].
      intros r. rewrite lookup_insert_ne by done. apply Hcl.
  - (* env ok *)
    counts. intros Hpos. destruct Hcr as [Hc Hcl]; [lia|]. split; [lia|].
    eapply client_alter; [|exact Hcl]. done.
  - (* env failed *)
    counts. intros Hpos. destruct Hcr as [Hc Hcl]; [case_bool_decide; lia|]. split; [done|].
    eapply client_alter; [|exact Hcl]. done.
  - (* test ok *)
    pose proof (count_creating_le_watches id0 (t1 ++ t2)) as Hle.
    counts. intros Hpos. destruct Hcr as [Hc Hcl]; [case_bool_decide; lia|].
    split; [case_bool_decide; lia|].
    eapply client_alter; [|exact Hcl]. done.
  - (* test failed *)
    counts. intros Hpos. destruct Hcr as [Hc Hcl]; [case_bool_decide; lia|]. split; [done|].
    eapply client_alter; [|exact Hcl]. done.
  - (* destroy absent *)
    pose proof (count_creating_le_watches id0 (t1 ++ t2)) as Hle.
    counts. intros Hpos. destruct Hcr as [Hc Hcl]; [lia|].
    split; [case_bool_decide; lia|done].
  - (* destroy mark *)
    counts. intros Hpos. destruct Hcr as [Hc Hcl]; [lia|]. split; [done|].
    eapply client_alter; [|exact Hcl]. done.
  - (* destroy finally *)
    pose proof (count_creating_le_watches id0 (t1 ++ t2)) as Hle.
    counts. intros Hpos. destruct Hcr as [Hc Hcl]; [lia|].
    split; [case_bool_decide; lia|].
    eapply client_keeps; [apply keeps_destroy_finally|done].
  - (* health launch *)
    counts. rewrite !Nat.add_0_r. intros Hpos. destruct Hcr as [Hc Hcl]; [lia|].
    split; [|done]. case_bool_decide as Hid; [|simpl; lia]. subst id0.
    match goal with H1 : instances s !! id = Some ?i, H2 : status ?i = READY |- _ =>
      destruct (creating_status _ _ _ _ Hok Hpos H1); congruence end.
  - (* health passed *)
    pose proof (count_creating_le_watches id0 (t1 ++ t2)) as Hle.
    counts. intros Hpos. destruct Hcr as [Hc Hcl]; [lia|].
    split; [case_bool_decide; lia|].
    eapply client_alter; [|exact Hcl]. done.
  - (* health failed *)
    counts. intros Hpos. destruct Hcr as [Hc Hcl]; [lia|]. done.
  - (* alloc take *)
    counts. rewrite !Nat.add_0_r. intros Hpos. destruct Hcr as [Hc Hcl]; [lia|]. done.
  - (* alloc finish *)
    counts. intros Hpos. destruct Hcr as [Hc Hcl]; [lia|]. split; [lia|].
    destruct (allocate_dequeued_instances client now id s) as [E|(inst & Hl & Hr & E)].
    + eapply client_keeps; [|done]. by apply keeps_instances.
    + intros r. rewrite E. destruct (decide (id = id0)) as [->|Hne].
      * assert (0 < count (creating id0) (t1 ++ AllocHolding client id0 :: t2))%nat as Hp
          by (counts; lia).
        destruct (creating_status _ _ _ _ Hok Hp Hl); congruence.
      * rewrite lookup_alter_ne by done. auto.
  - done.
  - (* release accepted *)
    counts. rewrite !Nat.add_0_r. intros Hpos. destruct Hcr as [Hc Hcl]; [lia|].
    split; [|done]. case_bool_decide as Hid; [|simpl; lia]. subst id0.
    match goal with H : release_permitted _ _ _ = true |- _ =>
      unfold release_permitted in H; destruct (instances s !! id) as [inst|] eqn:El;
        [|discriminate]; apply bool_decide_eq_true_1 in H end.
    specialize (Hcl _ eq_refl). congruence.
  - (* shutdown begin *)
    rewrite count_app, (count_survivors_child _ _ (creating_child id0)). simpl. lia.
  - (* destroy all *)
    assert (pm = PMCancelled) as ->.
    { apply (inv_shutdown _ Hinv). simpl. rewrite elem_of_app, elem_of_cons. auto. }
    assert (Forall (fun t => creation_child t = false)
                   (t1 ++ ShutdownAwaitCancel :: t2)) as Hnc
        by (by apply (inv_children _ Hinv)).
    assert (count (creating id0) (t1 ++ ShutdownAwaitCancel :: t2) = 0%nat) as Hz.
    { apply count_zero. eapply Forall_impl; [exact Hnc|]. intros t Ht.
      destruct (creating id0 t) eqn:Ec; [|done]. apply creating_child in Ec. congruence. }
    counts. rewrite (count_fmap_false (creating id0)) by done. lia.
Qed.

Lemma step_tasks_inv w l w' : tasks_inv w → step w l w' → tasks_inv w'.
Proof.
  intros Hinv Hstep. constructor.
  - by eapply step_children.
  - by eapply step_shutdown.
  - by eapply step_status.
  - by eapply step_creator.
Qed.

Lemma initial_tasks_inv pool max t i now : tasks_inv (initial pool max t i now).
Proof.
  constructor; simpl.
  - constructor.
  - by intros ?%elem_of_nil.
  - constructor.
  - intros id. lia.
Qed.

Lemma reachable_tasks_inv pool max t i now w :
  reachable (initial pool max t i now) w → tasks_inv w.
Proof.
  induction 1 as [|w l w' _ IH Hstep]; [apply initial_tasks_inv|].
  by eapply step_tasks_inv.
Qed.

Section Capacity.
Implicit Types (s : DockerScheduler) (m : gmap string DockerInstance).

Lemma size_alter (f : DockerInstance → DockerInstance) id m :
  size (alter f id m) = size m.
Proof. rewrite <- !(size_dom (D := gset string)). by rewrite dom_alter_L. Qed.

Lemma size_destroy_finally id s :
  (size (instances (destroy_finally id s)) ≤ size (instances s))%nat.
Proof.
  unfold destroy_finally. destruct (instances s !! id) eqn:E; [|done]. simpl.
  rewrite map_size_delete, E. simpl. lia.
Qed.

Lemma max_pool_size_destroy_finally id s :
  max_pool_size (destroy_finally id s) = max_pool_size s.
Proof. unfold destroy_finally. by destruct (instances s !! id). Qed.

Lemma size_unwind ts s : (size (instances (unwind ts s)) ≤ size (instances s))%nat.
Proof.
  revert s. induction ts as [|t ts IH]; intros s; simpl; [done|].
  destruct t as [| | |k i|k i| | |]; try apply IH.
  destruct k; try apply IH.
  etrans; [apply IH|apply size_destroy_finally].
Qed.

Lemma max_pool_size_unwind ts s : max_pool_size (unwind ts s) = max_pool_size s.
Proof.
  revert s. induction ts as [|t ts IH]; intros s; simpl; [done|].
  destruct t as [| | |k i|k i| | |]; try apply IH.
  destruct k; try apply IH.
  by rewrite IH, max_pool_size_destroy_finally.
Qed.

Lemma size_allocate_dequeued client now id s :
  size (instances (alloc_sched (allocate_dequeued true client now id s))) =
  size (instances s).
Proof.
  destruct (allocate_dequeued_instances client now id s) as [->|(_ & _ & _ & ->)]; [done|].
  apply size_alter.
Qed.

Lemma max_pool_size_allocate_dequeued client now id s :
  max_pool_size (alloc_sched (allocate_dequeued true client now id s)) = max_pool_size s.
Proof.
  unfold allocate_dequeued, requeue. destruct (instances s !! id) as [inst|]; [|done].
  by destruct (decide (status inst = READY)).
Qed.

(** The configuration is never written. *)
Lemma step_max_pool_size w l w' :
  step w l w' → max_pool_size (sched w') = max_pool_size (sched w).
Proof.
  intros Hstep. inversion Hstep; subst; simpl; try done.
  - apply max_pool_size_destroy_finally.
  - apply max_pool_size_allocate_dequeued.
  - by rewrite max_pool_size_unwind.
Qed.

Lemma launched_fits s :
  Z.of_nat (size (instances s)) + Z.of_nat (launched s) ≤ Z.max 0 (max_pool_size s)
  ∨ launched s = 0%nat.
Proof.
  unfold launched. destruct (Z.ltb_spec 0 (actual_needed s)) as [Hpos|]; [left|by right].
  unfold actual_needed, can_create, total_instances in *. lia.
Qed.

Lemma step_capacity w l w' :
  tasks_inv w → capacity_inv w → step w l w' → capacity_inv w'.
Proof.
  intros Hinv Hcap Hstep. unfold capacity_inv in *.
  rewrite (step_max_pool_size _ _ _ Hstep).
  inversion Hstep; subst; simpl in *;
    rewrite ?count_app, ?count_cons, ?size_alter in *; simpl in *; try lia.
  - (* pool cycle: the pool manager was asleep, so nothing was pending *)
    assert (count is_scheduled ts = 0%nat) as Hz.
    { apply count_zero. eapply Forall_impl; [by apply (inv_children _ Hinv)|].
      intros t Ht. destruct (is_scheduled t) eqn:E; [|done].
      apply scheduled_child in E. congruence. }
    rewrite count_replicate. simpl. destruct (launched_fits s) as [Hfit|Hnone]; lia.
  - (* create start *)
    match goal with H : fresh _ _ |- _ => destruct H as (Hnone & _) end. simpl in Hnone.
    rewrite map_size_insert_None by done. lia.
  - pose proof (size_destroy_finally id s). lia.
  - rewrite size_allocate_dequeued. lia.
  - pose proof (size_unwind ts (set_running false s)) as Hle. simpl in Hle.
    rewrite (count_survivors_child _ _ scheduled_child). lia.
  - rewrite (count_fmap_false is_scheduled) by done. lia.
Qed.

Lemma initial_capacity_inv pool max t i now : capacity_inv (initial pool max t i now).
Proof. unfold capacity_inv. simpl. rewrite map_size_empty. lia. Qed.

Lemma reachable_capacity_inv pool max t i now w :
  reachable (initial pool max t i now) w →
  capacity_inv w ∧ max_pool_size (sched w) = max.
Proof.
  induction 1 as [|w l w' Hreach [IHc IHm] Hstep].
  - split; [apply initial_capacity_inv|done].
  - split.
    + eapply step_capacity; [|done..]. by eapply reachable_tasks_inv.
    + by rewrite (step_max_pool_size _ _ _ Hstep).
Qed.
End Capacity.

(** C9.  With a non-negative [max_pool_size], in every world reachable
    from a freshly started scheduler the registry holds at most
    [max_pool_size] records (and the configured maximum is never
    rewritten): creations are the only insertions, and a cycle launches
    no more of them than the room it has just measured. *)
Theorem registry_never_exceeds_max (pool max t i now : Z) (w : World) :
  0 ≤ max →
  reachable (initial pool max t i now) w →
  total_instances (sched w) ≤ max_pool_size (sched w) ∧ max_pool_size (sched w) = max.
Proof.
  intros Hmax Hreach. destruct (reachable_capacity_inv _ _ _ _ _ _ Hreach) as [Hcap Hm].
  split; [|done]. unfold capacity_inv, total_instances in *. lia.
Qed.

Section Edges.
Implicit Types (s : DockerScheduler) (id : string).

Lemma unwind_lookup ts s id :
  Forall (task_ok s) ts →
  instances (unwind ts s) !! id = instances s !! id ∨
  (status <$> instances s !! id = Some DESTROYING ∧ instances (unwind ts s) !! id = None).
Proof.
  revert s. induction ts as [|t ts IH]; intros s Hok; simpl; [by left|].
  apply Forall_cons in Hok as [Ht Hok].
  destruct t as [| | |k i|k i| | |]; try by apply IH.
  destruct k; try by apply IH.
  assert (Forall (task_ok (destroy_finally i s)) ts) as Hok'
    by (eapply Forall_task_ok_keeps; [apply keeps_destroy_finally|done]).
  destruct (decide (i = id)) as [->|Hne].
  - assert (instances (unwind ts (destroy_finally id s)) !! id = None) as Hgone.
    { destruct (instances (unwind ts (destroy_finally id s)) !! id) as [r'|] eqn:E; [|done].
      destruct (keeps_unwind ts _ _ _ E) as (r & Hr & _).
      by rewrite lookup_destroy_finally_eq in Hr. }
    rewrite Hgone. destruct (instances s !! id) as [r|] eqn:E; [|by left].
    right. split; [|done]. simpl. f_equal. by apply Ht.
  - destruct (IH _ Hok') as [E|[E1 E2]].
    + left. by rewrite E, lookup_destroy_finally_ne.
    + right. by rewrite lookup_destroy_finally_ne in E1.
Qed.

Lemma edge_alter_other (f : DockerInstance → DockerInstance)
    (m : gmap string DockerInstance) id id' :
  id ≠ id' → observed_edge (status <$> m !! id') (status <$> alter f id m !! id').
Proof. intros Hne. rewrite lookup_alter_ne by done. apply edge_claimed, edge_same. Qed.
End Edges.

(** C1, amended.  In every world reachable from a freshly started
    scheduler, whatever step the loop takes (pool-manager cycle,
    creation, readiness test, allocation, release by a client string,
    health check, shutdown), the status registered under any id either
    stays as it is or moves along one of the claimed edges or to
    DESTROYING from whatever it was. *)
Theorem status_changes_along_observed_edges (pool max t i now : Z)
    (w : World) (l : Label) (w' : World) (id : string) :
  reachable (initial pool max t i now) w →
  step w l w' →
  observed_edge (status_at w id) (status_at w' id).
Proof.
  intros Hreach Hstep. pose proof (reachable_tasks_inv _ _ _ _ _ _ Hreach) as Hinv.
  pose proof (inv_status _ Hinv) as Hok. unfold status_at.
  inversion Hstep; subst; simpl in *; try (apply edge_claimed, edge_same).
  - (* create start *)
    match goal with H : fresh _ _ |- _ => destruct H as (Hnone & _) end. simpl in Hnone.
    destruct (decide (id0 = id)) as [->|Hne].
    + rewrite lookup_insert_eq, Hnone. apply edge_claimed, edge_created.
    + rewrite lookup_insert_ne by done. apply edge_claimed, edge_same.
  - (* env ok: CREATING -> TESTING *)
    destruct (decide (id0 = id)) as [->|Hne]; [|by apply edge_alter_other].
    apply Forall_app in Hok as [_ [HT _]%Forall_cons]. unfold task_ok in HT. simpl in HT.
    rewrite lookup_alter_eq. destruct (instances s !! id) as [r|]; simpl.
    + rewrite (HT r eq_refl). apply edge_claimed, edge_creating_testing.
    + apply edge_claimed, edge_same.
  - (* env failed: any -> FAILED *)
    destruct (decide (id0 = id)) as [->|Hne]; [|by apply edge_alter_other].
    rewrite lookup_alter_eq. destruct (instances s !! id) as [r|]; simpl.
    + apply edge_claimed, edge_any_failed.
    + apply edge_claimed, edge_same.
  - (* test ok: TESTING -> READY *)
    destruct (decide (id0 = id)) as [->|Hne]; [|by apply edge_alter_other].
    apply Forall_app in Hok as [_ [HT _]%Forall_cons]. unfold task_ok in HT. simpl in HT.
    rewrite lookup_alter_eq. destruct (instances s !! id) as [r|]; simpl.
    + rewrite (HT r eq_refl). apply edge_claimed, edge_testing_ready.
    + apply edge_claimed, edge_same.
  - (* test failed: any -> FAILED *)
    destruct (decide (id0 = id)) as [->|Hne]; [|by apply edge_alter_other].
    rewrite lookup_alter_eq. destruct (instances s !! id) as [r|]; simpl.
    + apply edge_claimed, edge_any_failed.
    + apply edge_claimed, edge_same.
  - (* destroy mark: any -> DESTROYING *)
    destruct (decide (id0 = id)) as [->|Hne]; [|by apply edge_alter_other].
    rewrite lookup_alter_eq. destruct (instances s !! id) as [r|]; simpl.
    + apply edge_any_destroying.
    + apply edge_claimed, edge_same.
  - (* destroy finally: DESTROYING -> removed *)
    destruct (decide (id0 = id)) as [->|Hne].
    + apply Forall_app in Hok as [_ [HT _]%Forall_cons]. unfold task_ok in HT. simpl in HT.
      rewrite lookup_destroy_finally_eq. destruct (instances s !! id) as [r|]; simpl.
      * rewrite (HT r eq_refl). apply edge_claimed, edge_destroying_removed.
      * apply edge_claimed, edge_same.
    + rewrite lookup_destroy_finally_ne by done. apply edge_claimed, edge_same.
  - (* health passed: the status is not written *)
    destruct (decide (id0 = id)) as [->|Hne]; [|by apply edge_alter_other].
    rewrite lookup_alter_eq. destruct (instances s !! id) as [r|]; simpl;
      apply edge_claimed, edge_same.
  - (* alloc finish: READY -> ALLOCATED, or nothing *)
    destruct (allocate_dequeued_instances client now0 id0 s) as [->|(inst & Hl & Hr & ->)];
      [apply edge_claimed, edge_same|].
    destruct (decide (id0 = id)) as [->|Hne]; [|by apply edge_alter_other].
    rewrite lookup_alter_eq, Hl. simpl. rewrite Hr.
    apply edge_claimed, edge_ready_allocated.
  - (* shutdown: children unwinding through finally *)
    destruct (unwind_lookup ts (set_running false s) id) as [->|[E ->]]; [done|..].
    + apply edge_claimed, edge_same.
    + simpl in E. rewrite E. apply edge_claimed, edge_destroying_removed.
Qed.

Ltac births_same Hb Hpm :=
  let Hl := fresh "Hl" in let Hst := fresh "Hst" in
  intros Hl Hst; specialize (Hb Hpm _ _ Hl Hst); counts; simpl in *;
  rewrite ?count_replicate, ?Nat.add_0_r in *; simpl in *; try lia.

Ltac births_alter Hb Hpm id0 id :=
  let Hl := fresh "Hl" in let Hst := fresh "Hst" in
  let r0 := fresh "r0" in let E := fresh "E" in
  intros Hl Hst; destruct (decide (id0 = id)) as [->|?];
  [ rewrite lookup_alter_eq in Hl; destruct (instances _ !! id) as [r0|] eqn:E;
    simpl in Hl; [injection Hl as <-; simpl in Hst|discriminate Hl]
  | rewrite lookup_alter_ne in Hl by done; specialize (Hb Hpm _ _ Hl Hst);
    counts; rewrite ?bool_decide_eq_false_2 in * by done; simpl in *; try lia ].

Lemma step_births w l w' : tasks_inv w → births_inv w → step w l w' → births_inv w'.
Proof.
  intros Hinv Hb Hstep Hpm id r. unfold births_inv in Hb.
  inversion Hstep; subst; simpl in *; counts.
  - assert (PMSleeping ≠ PMCancelled) as Hpm' by done. births_same Hb Hpm'.
  - assert (PMGathering ≠ PMCancelled) as Hpm' by done. births_same Hb Hpm'.
  - (* create start *)
    intros Hl Hst. destruct (decide (id0 = id)) as [->|Hne].
    + rewrite bool_decide_eq_true_2 by done. lia.
    + rewrite lookup_insert_ne in Hl by done. specialize (Hb Hpm _ _ Hl Hst).
      counts. case_bool_decide; lia.
  - births_alter Hb Hpm id0 id. rewrite bool_decide_eq_true_2 by done. lia.
  - births_alter Hb Hpm id0 id. destruct Hst; discriminate.
  - births_alter Hb Hpm id0 id. destruct Hst; discriminate.
  - births_alter Hb Hpm id0 id. destruct Hst; discriminate.
  - births_same Hb Hpm.
  - births_alter Hb Hpm id0 id. destruct Hst; discriminate.
  - intros Hl Hst. destruct (decide (id0 = id)) as [->|Hne].
    + by rewrite lookup_destroy_finally_eq in Hl.
    + rewrite lookup_destroy_finally_ne in Hl by done. specialize (Hb Hpm _ _ Hl Hst).
      counts. lia.
  - births_same Hb Hpm.
  - births_alter Hb Hpm id0 id. specialize (Hb Hpm _ _ E Hst). counts. lia.
  - births_same Hb Hpm.
  - births_same Hb Hpm.
  - destruct (allocate_dequeued_instances client now id0 s) as [->|(inst & Hl' & Hr & ->)].
    + births_same Hb Hpm.
    + births_alter Hb Hpm id0 id. destruct Hst; discriminate.
  - births_same Hb Hpm.
  - births_same Hb Hpm.
  - done.
  - assert (pm = PMCancelled); [|done].
    apply (inv_shutdown _ Hinv). simpl. rewrite elem_of_app, elem_of_cons. auto.
Qed.

Lemma reachable_births_inv pool max t i now w :
  reachable (initial pool max t i now) w → births_inv w.
Proof.
  induction 1 as [|w l w' Hreach IH Hstep].
  - intros _ id r. simpl. by rewrite lookup_empty.
  - eapply step_births; [|done..]. by eapply reachable_tasks_inv.
Qed.

Lemma filter_none {A} (P : A → Prop) `{∀ x, Decision (P x)} (l : list A) :
  Forall (fun x => ¬ P x) l → filter P l = [].
Proof.
  induction 1 as [|x l Hx _ IH]; [done|].
  rewrite filter_cons. by destruct (decide (P x)).
Qed.

Lemma count_status_none st s :
  (∀ id r, instances s !! id = Some r → status r ≠ st) → count_status st s = 0.
Proof.
  intros H. unfold count_status. rewrite filter_none; [done|].
  apply Forall_forall. intros r Hr.
  apply list_elem_of_fmap in Hr as ([id r'] & -> & Hin).
  apply elem_of_map_to_list in Hin. simpl. eauto.
Qed.

(** X1.  With the cycle held back until every creation has returned, a
    cycle never finds a record that is CREATING or TESTING: whenever the
    pool manager is at its sleep, the share of the concurrency limit
    already in use is zero and all 128 slots are available. *)
Theorem pool_cycle_sees_no_creation (pool max t i now : Z) (w : World) :
  reachable (initial pool max t i now) w →
  pool_manager w = PMSleeping →
  ongoing_creations (sched w) = 0 ∧
  creation_slots_available (sched w) = concurrent_creation_limit.
Proof.
  intros Hreach Hpm.
  pose proof (reachable_tasks_inv _ _ _ _ _ _ Hreach) as Hinv.
  pose proof (reachable_births_inv _ _ _ _ _ _ Hreach) as Hb.
  assert (∀ id r, instances (sched w) !! id = Some r →
                  status r ≠ CREATING ∧ status r ≠ TESTING) as Hnone.
  { intros id r Hl.
    assert (count (creating id) (tasks w) = 0%nat) as Hz.
    { apply count_zero. eapply Forall_impl.
      - apply (inv_children _ Hinv). by rewrite Hpm.
      - intros t' Ht. destruct (creating id t') eqn:E; [|done].
        apply creating_child in E. congruence. }
    split; intros Hst.
    - assert (0 < count (creating id) (tasks w))%nat; [|lia].
      apply (Hb ltac:(by rewrite Hpm) id r Hl). by left.
    - assert (0 < count (creating id) (tasks w))%nat; [|lia].
      apply (Hb ltac:(by rewrite Hpm) id r Hl). by right. }
  assert (ongoing_creations (sched w) = 0) as Hz.
  { unfold ongoing_creations, creating_count, testing_count.
    rewrite !count_status_none; [done|..]; intros id r Hl; by destruct (Hnone _ _ Hl). }
  split; [done|]. unfold creation_slots_available. by rewrite Hz.
Qed.

(** C3 fails on the code: [_pool_manager] awaits the [gather] of the
    creations it launched.  In every reachable world in which one of them
    has not returned yet, the pool manager stands at that [await] and no
    further cycle can run. *)
Theorem pool_cycle_waits_for_creations (pool max t i now : Z) (w : World) :
  reachable (initial pool max t i now) w →
  Exists (fun t => creation_child t = true) (tasks w) →
  pool_manager w = PMGathering ∧ ∀ w', ¬ step w PoolCycle w'.
Proof.
  intros Hreach Hex. pose proof (reachable_tasks_inv _ _ _ _ _ _ Hreach) as Hinv.
  assert (pool_manager w = PMGathering) as Hpm.
  { apply Exists_exists in Hex as (t' & Hin & Ht).
    pose proof (inv_children _ Hinv) as Hall. rewrite Forall_forall in Hall.
    destruct (pool_manager w); [|done|];
      (assert (creation_child t' = false) by (by apply Hall); congruence). }
  split; [done|]. intros w' Hstep. inversion Hstep; subst. discriminate.
Qed.

(** ** The ready queue holds every id at most once *)

Section Queue.
Implicit Types (s : DockerScheduler) (ts : list Task) (id : string).

Lemma NoDup_submseteq_inv (l k : list string) : l ⊆+ k → NoDup k → NoDup l.
Proof.
  intros (k' & Hsub & Hperm)%submseteq_sublist_l Hk.
  eapply sublist_NoDup; [|exact Hsub]. by rewrite Hperm.
Qed.

Lemma in_flight_replicate n : replicate n CreateScheduled ≫= in_flight = [].
Proof. induction n as [|n IH]; [done|]. cbn [replicate]. by rewrite bind_cons, IH. Qed.

Lemma in_flight_fmap (f : string → Task) (l : list string) :
  (∀ x, in_flight (f x) = []) → (f <$> l) ≫= in_flight = [].
Proof.
  intros H. induction l as [|x l IH]; [done|].
  by rewrite fmap_cons, bind_cons, H, IH.
Qed.

Lemma in_flight_survivors ts : survivors ts ≫= in_flight ⊆+ ts ≫= in_flight.
Proof.
  unfold survivors. induction ts as [|t ts IH]; [done|].
  rewrite filter_cons, bind_cons. destruct (decide (creation_child t = false)).
  - rewrite bind_cons. by apply submseteq_skips_l.
  - by apply submseteq_inserts_l.
Qed.

Lemma in_flight_holds id ts :
  Forall (fun t => holds id t = false) ts → id ∉ ts ≫= in_flight.
Proof.
  induction 1 as [|t ts Ht _ IH]; [apply not_elem_of_nil|].
  rewrite bind_cons, elem_of_app. intros [Hin|Hin]; [|done].
  destruct t; simpl in *; try (by apply elem_of_nil in Hin);
    apply list_elem_of_singleton in Hin as ->;
    by rewrite bool_decide_eq_true_2 in Ht.
Qed.

Lemma ready_queue_destroy_finally id s :
  ready_queue (destroy_finally id s) = ready_queue s.
Proof. unfold destroy_finally. by destruct (instances s !! id). Qed.

Lemma ready_queue_unwind ts s : ready_queue (unwind ts s) = ready_queue s.
Proof.
  revert s. induction ts as [|t ts IH]; intros s; simpl; [done|].
  destruct t as [| | |k i|k i| | |]; try apply IH.
  destruct k; try apply IH.
  by rewrite IH, ready_queue_destroy_finally.
Qed.

Lemma ready_queue_allocate_dequeued client now id s :
  ready_queue (alloc_sched (allocate_dequeued true client now id s)) = ready_queue s ∨
  ready_queue (alloc_sched (allocate_dequeued true client now id s)) = ready_queue s ++ [id].
Proof.
  unfold allocate_dequeued, requeue. destruct (instances s !! id) as [inst|]; [|by right].
  destruct (decide (status inst = READY)); [by left|by right].
Qed.

Lemma eject_submseteq id s : ready_queue (eject id s) ⊆+ ready_queue s.
Proof.
  destruct (decide (id ∈ ready_queue s)) as [Hin|Hnin].
  - apply list_elem_of_split_l in Hin as (q1 & q2 & E & Hq1).
    rewrite (eject_first _ _ _ _ E Hq1), E. simpl. solve_submseteq.
  - by rewrite eject_not_in.
Qed.

Lemma step_queue w l w' : queue_inv w → step w l w' → queue_inv w'.
Proof.
  unfold queue_inv. intros Hnd Hstep.
  inversion Hstep; subst; simpl in *;
    rewrite ?bind_app, ?bind_cons, ?in_flight_replicate in *; simpl in *;
    rewrite ?app_nil_r in *; try done;
    try (eapply NoDup_submseteq_inv; [|exact Hnd]; solve_submseteq).
  - (* create start: the new id is in use nowhere *)
    match goal with H : fresh _ _ |- _ => destruct H as (_ & Hq & Hholds) end.
    simpl in *. apply Forall_app in Hholds as [Hh1 [_ Hh2]%Forall_cons].
    apply in_flight_holds in Hh1, Hh2.
    assert (ready_queue s ++ (t1 ≫= in_flight) ++ id :: t2 ≫= in_flight
            ≡ₚ id :: ready_queue s ++ (t1 ≫= in_flight) ++ t2 ≫= in_flight) as ->
      by solve_Permutation.
    apply NoDup_cons. split; [|done]. rewrite !elem_of_app. tauto.
  - by rewrite ready_queue_destroy_finally.
  - (* health ejection *)
    change (refill (drain id (ready_queue s) false []) []) with (ready_queue (eject id s)).
    eapply NoDup_submseteq_inv; [|exact Hnd].
    apply submseteq_skips_r, eject_submseteq.
  - (* alloc take *)
    match goal with H : ready_queue s = _ |- _ => rewrite H in Hnd end.
    eapply NoDup_submseteq_inv; [|exact Hnd]. solve_submseteq.
  - (* alloc finish *)
    destruct (ready_queue_allocate_dequeued client now id s) as [->| ->];
      (eapply NoDup_submseteq_inv; [|exact Hnd]; solve_submseteq).
  - (* shutdown *)
    rewrite ready_queue_unwind. simpl.
    eapply NoDup_submseteq_inv; [|exact Hnd].
    apply submseteq_skips_l, in_flight_survivors.
  - rewrite in_flight_fmap by done. rewrite !app_nil_r.
    eapply NoDup_submseteq_inv; [|exact Hnd]. solve_submseteq.
Qed.

Lemma reachable_queue_inv pool max t i now w :
  reachable (initial pool max t i now) w → queue_inv w.
Proof.
  induction 1 as [|w l w' _ IH Hstep]; [|by eapply step_queue].
  unfold queue_inv. simpl. constructor.
Qed.

(** X2.  In a reachable world no id sits twice in the ready queue, so
    the health handler, which drops the first occurrence only, leaves
    none of the ejected id behind. *)
Theorem ejected_id_leaves_queue (pool max t i now : Z) (w : World)
    (d : string → DeleteOutcome) (id : string) :
  reachable (initial pool max t i now) w →
  NoDup (ready_queue (sched w)) ∧
  (id ∉ ready_queue (_handle_unhealthy_instance d id (sched w))) ∧
  (id ∉ ready_queue (eject id (sched w))).
Proof.
  intros Hreach. pose proof (reachable_queue_inv _ _ _ _ _ _ Hreach) as Hnd.
  unfold queue_inv in Hnd. apply NoDup_app in Hnd as (Hq & _ & _).
  split; [done|].
  assert (id ∉ ready_queue (eject id (sched w))) as Hgone.
  { destruct (decide (id ∈ ready_queue (sched w))) as [Hin|Hnin].
    - apply list_elem_of_split_l in Hin as (q1 & q2 & E & Hq1).
      rewrite (eject_first _ _ _ _ E Hq1). simpl.
      rewrite E in Hq. apply NoDup_app in Hq as (_ & _ & Hq).
      apply NoDup_cons in Hq as [Hq2 _]. rewrite elem_of_app. tauto.
    - by rewrite eject_not_in. }
  split; [|done]. unfold _handle_unhealthy_instance.
  destruct (instances (eject id (sched w)) !! id) eqn:E.
  - by rewrite (destroy_instance_present _ _ _ _ E).
  - by rewrite destroy_instance_absent.
Qed.
End Queue.

(** ** The worked scenario, step by step *)

Lemma reach_launched : reachable world0 world_launched.
Proof.
  eapply reachable_step; [apply reachable_init|].
  apply (step_pool_cycle (sched world0) []). reflexivity.
Qed.

Lemma reach_creating : reachable world0 world_creating.
Proof.
  eapply reachable_step; [apply reach_launched|].
  apply (step_create_start (sched world0) PMGathering [] [] "inst_1" 1).
  split; [reflexivity|]. split; [apply not_elem_of_nil|].
  repeat constructor.
Qed.

Lemma reach_testing : reachable world0 world_testing.
Proof.
  eapply reachable_step; [apply reach_creating|].
  apply (step_create_env_ok _ PMGathering [] [] "inst_1" "env-1" "10.0.0.1:6060").
  reflexivity.
Qed.

Lemma reach_stopping : reachable world0 world_stopping.
Proof.
  eapply reachable_step; [apply reach_testing|].
  apply (step_shutdown_begin (sched world_testing) PMGathering [CreateAwaitTest "inst_1"]).
Qed.

Lemma reach_sweeping : reachable world0 world_sweeping.
Proof.
  eapply reachable_step; [apply reach_stopping|].
  apply (step_shutdown_destroy_all (sched world_stopping) PMCancelled [] []).
Qed.

Lemma step_marked : step world_sweeping (DestroyEnter ByShutdown "inst_1") world_marked.
Proof.
  eapply (step_destroy_mark _ PMCancelled [] [] ByShutdown "inst_1"). reflexivity.
Qed.

(** C1 as stated fails: shutdown reaches an instance whose readiness
    test was still running, and [_destroy_instance] takes its record from
    TESTING straight to DESTROYING, which is none of the claimed edges. *)
Lemma shutdown_marks_testing_destroying :
  reachable world0 world_sweeping ∧
  step world_sweeping (DestroyEnter ByShutdown "inst_1") world_marked ∧
  status_at world_sweeping "inst_1" = Some TESTING ∧
  status_at world_marked "inst_1" = Some DESTROYING ∧
  ¬ claimed_edge (status_at world_sweeping "inst_1") (status_at world_marked "inst_1").
Proof.
  assert (status_at world_sweeping "inst_1" = Some TESTING) as E1 by reflexivity.
  assert (status_at world_marked "inst_1" = Some DESTROYING) as E2 by reflexivity.
  split; [apply reach_sweeping|]. split; [apply step_marked|].
  split; [done|]. split; [done|].
  rewrite E1, E2. intros H. inversion H.
Qed.

Lemma status_changes_along_observed_edges_witness :
  observed_edge (status_at world_sweeping "inst_1") (status_at world_marked "inst_1").
Proof.
  apply (status_changes_along_observed_edges 1 1 900 1200 0 world_sweeping
           (DestroyEnter ByShutdown "inst_1") world_marked "inst_1").
  - apply reach_sweeping.
  - apply step_marked.
Defined.

Lemma pool_cycle_waits_for_creations_witness :
  pool_manager world_launched = PMGathering ∧ ∀ w', ¬ step world_launched PoolCycle w'.
Proof.
  apply (pool_cycle_waits_for_creations 1 1 900 1200 0 world_launched).
  - apply reach_launched.
  - apply Exists_cons_hd. reflexivity.
Defined.

Lemma registry_never_exceeds_max_witness :
  total_instances (sched world_testing) ≤ max_pool_size (sched world_testing) ∧
  max_pool_size (sched world_testing) = 1.
Proof.
  apply (registry_never_exceeds_max 1 1 900 1200 0 world_testing).
  - lia.
  - apply reach_testing.
Defined.

(** * Further properties of the scheduler *)

(** ** The second scenario, step by step *)

Lemma reach_pool_launched : reachable pool0 pool_launched.
Proof.
  eapply reachable_step; [apply reachable_init|].
  apply (step_pool_cycle (sched pool0) []). reflexivity.
Qed.

Lemma reach_pool_creating : reachable pool0 pool_creating.
Proof.
  eapply reachable_step; [apply reach_pool_launched|].
  apply (step_create_start (sched pool0) PMGathering [] [] "inst_a" 1).
  split; [reflexivity|]. split; [apply not_elem_of_nil|].
  repeat constructor.
Qed.

Lemma reach_pool_testing : reachable pool0 pool_testing.
Proof.
  eapply reachable_step; [apply reach_pool_creating|].
  apply (step_create_env_ok _ PMGathering [] [] "inst_a" "env-a" "10.0.0.2:6060").
  reflexivity.
Qed.

Lemma reach_pool_ready : reachable pool0 pool_ready.
Proof.
  eapply reachable_step; [apply reach_pool_testing|].
  apply (step_create_test_ok _ PMGathering [] [] "inst_a" 5).
Qed.

Lemma reach_pool_idle : reachable pool0 pool_idle.
Proof.
  eapply reachable_step; [apply reach_pool_ready|].
  apply (step_gather_done _ []). constructor.
Qed.

Lemma reach_pool_taken : reachable pool0 pool_taken.
Proof.
  eapply reachable_step; [apply reach_pool_idle|].
  apply (step_alloc_take (sched pool_idle) PMSleeping [] "worker" "inst_a" []).
  reflexivity.
Qed.

Lemma reach_pool_granted : reachable pool0 pool_granted.
Proof.
  eapply reachable_step; [apply reach_pool_taken|].
  apply (step_alloc_finish _ PMSleeping [] [] "worker" "inst_a" 7).
Qed.

(** ** What the pool manager and the health handler can rely on *)

Lemma pool_cycle_sees_no_creation_witness :
  ongoing_creations (sched pool_idle) = 0 ∧
  creation_slots_available (sched pool_idle) = concurrent_creation_limit.
Proof.
  apply (pool_cycle_sees_no_creation 1 2 900 1200 0 pool_idle).
  - apply reach_pool_idle.
  - reflexivity.
Defined.

Lemma ejected_id_leaves_queue_witness :
  NoDup (ready_queue (sched pool_idle)) ∧
  ("inst_a" ∉ ready_queue (_handle_unhealthy_instance (fun _ => DeleteOk) "inst_a"
                             (sched pool_idle))) ∧
  ("inst_a" ∉ ready_queue (eject "inst_a" (sched pool_idle))).
Proof.
  apply (ejected_id_leaves_queue 1 2 900 1200 0 pool_idle (fun _ => DeleteOk) "inst_a").
  apply reach_pool_idle.
Defined.

(** ** Creation, run to its end *)

(** X3.  [_create_instance] on an id not yet registered ends in one of
    two ways.  When the provisioner returned a non-empty [env_id] and
    [endpoint] and the readiness test passed, the instance is returned,
    registered as READY with its health stamp, appended to the ready
    queue, and only [total_created] moves.  In every other case [None]
    is returned, registry and ready queue are as before the call (the
    record entered at the start is gone again), and [total_failed] and
    [total_destroyed] both move by one; [total_created] moves only if
    the failure came after a complete answer of the provisioner. *)
Theorem create_instance_outcome (id : string) (now : Z) (env : EnvOutcome)
    (probe_ok : bool) (ready_at : Z) (d : string → DeleteOutcome) (s : DockerScheduler) :
  instances s !! id = None →
  let s' := fst (_create_instance id now env probe_ok ready_at d s) in
  let r := snd (_create_instance id now env probe_ok ready_at d s) in
  match env with
  | EnvReturned e ep =>
      if env_complete e ep && probe_ok then
        r = Some (ready_instance id e ep now ready_at) ∧
        instances s' = <[id := ready_instance id e ep now ready_at]> (instances s) ∧
        ready_queue s' = ready_queue s ++ [id] ∧
        stats s' = incr_created (stats s)
      else
        r = None ∧ instances s' = instances s ∧ ready_queue s' = ready_queue s ∧
        stats s' = incr_destroyed (incr_failed
                     (if env_complete e ep then incr_created (stats s) else stats s))
  | EnvRaised _ =>
      r = None ∧ instances s' = instances s ∧ ready_queue s' = ready_queue s ∧
      stats s' = incr_destroyed (incr_failed (stats s))
  end.
Proof.
  intros Hfresh s' r. subst s' r. unfold _create_instance.
  assert (∀ msg, _destroy_instance d id (create_failed id msg (create_begin id now s)) =
                 set_stats (incr_destroyed (incr_failed (stats s))) s) as Hfail0.
  { intros msg. erewrite destroy_instance_present.
    2:{ simpl. rewrite lookup_alter_eq, lookup_insert_eq. reflexivity. }
    simpl. unfold set_stats, set_instances. simpl. f_equal.
    by rewrite delete_alter_eq, delete_insert_eq, delete_id. }
  destruct env as [e ep|msg]; [|by rewrite Hfail0].
  destruct (env_complete e ep) eqn:Hc; [|by rewrite Hfail0].
  destruct probe_ok; simpl.
  - rewrite lookup_alter_eq, lookup_alter_eq, lookup_insert_eq. simpl.
    split; [done|]. split; [|done].
    apply map_eq. intros j. destruct (decide (id = j)) as [->|Hne].
    + by rewrite !lookup_alter_eq, !lookup_insert_eq.
    + by rewrite !lookup_alter_ne, !lookup_insert_ne.
  - erewrite destroy_instance_present.
    2:{ simpl. rewrite !lookup_alter_eq, lookup_insert_eq. reflexivity. }
    simpl. split; [done|]. split; [|done].
    by rewrite !delete_alter_eq, delete_insert_eq, delete_id.
Qed.

Lemma create_instance_outcome_witness :
  let s := sched pool_idle in
  let d := fun _ : string => DeleteRaised "timeout" in
  snd (_create_instance "inst_b" 9 (EnvReturned "env-b" "") true 10 d s) = None ∧
  instances (fst (_create_instance "inst_b" 9 (EnvReturned "env-b" "") true 10 d s)) =
    instances s ∧
  ready_queue (fst (_create_instance "inst_b" 9 (EnvReturned "env-b" "") true 10 d s)) =
    ready_queue s ∧
  stats (fst (_create_instance "inst_b" 9 (EnvReturned "env-b" "") true 10 d s)) =
    incr_destroyed (incr_failed (stats s)).
Proof.
  apply (create_instance_outcome "inst_b" 9 (EnvReturned "env-b" "") true 10
           (fun _ => DeleteRaised "timeout") (sched pool_idle)).
  reflexivity.
Defined.

(** ** Registered records are consistent *)

Section Records.
Implicit Types (s : DockerScheduler) (id : string) (r : DockerInstance).

Lemma registry_alter (f : DockerInstance → DockerInstance)
    (m : gmap string DockerInstance) id :
  (∀ i r, m !! i = Some r → record_ok i r) →
  (∀ r, m !! id = Some r → record_ok id (f r)) →
  ∀ i r', alter f id m !! i = Some r' → record_ok i r'.
Proof.
  intros Hm Hf i r'. destruct (decide (id = i)) as [->|Hne].
  - rewrite lookup_alter_eq. destruct (m !! i) as [r|] eqn:E; [|done].
    simpl. intros [= <-]. by apply Hf.
  - rewrite lookup_alter_ne by done. apply Hm.
Qed.

Lemma lookup_unwind ts s id r :
  instances (unwind ts s) !! id = Some r → instances s !! id = Some r.
Proof.
  revert s. induction ts as [|t ts IH]; intros s; simpl; [done|].
  destruct t as [| | |k i|k i| | |]; try apply IH.
  destruct k; try apply IH.
  intros H. apply IH in H. destruct (decide (i = id)) as [->|Hne].
  - by rewrite lookup_destroy_finally_eq in H.
  - by rewrite lookup_destroy_finally_ne in H.
Qed.

Lemma env_complete_set e ep : env_complete e ep = true → e ≠ "" ∧ ep ≠ "".
Proof.
  unfold env_complete. intros [H1 H2]%andb_true_iff.
  apply negb_true_iff in H1, H2.
  split; intros ->; discriminate.
Qed.

Lemma creator_record w t1 t t2 id r :
  tasks_inv w → tasks w = t1 ++ t :: t2 → creating id t = true →
  instances (sched w) !! id = Some r → client_id r = None.
Proof.
  intros Hinv E Ht Hl. destruct (inv_creator _ Hinv id) as [_ Hc]; [|by eapply Hc].
  rewrite E, count_app, count_cons, Ht. lia.
Qed.

Lemma task_status w t1 t t2 id st r :
  tasks_inv w → tasks w = t1 ++ t :: t2 → expects t = Some (id, st) →
  instances (sched w) !! id = Some r → status r = st.
Proof.
  intros Hinv E Ht Hl. pose proof (inv_status _ Hinv) as Hok. rewrite E in Hok.
  apply Forall_app in Hok as [_ [Hok _]%Forall_cons].
  unfold task_ok in Hok. rewrite Ht in Hok. by apply Hok.
Qed.

Ltac rec_auto :=
  unfold record_ok in *; simpl in *;
  repeat match goal with
         | H : is_Some None |- _ => destruct H as [? H]; discriminate H
         | H : ?a = None |- _ => rewrite H in *
         end;
  intuition (try discriminate; try congruence; eauto);
  repeat match goal with
         | H : is_Some None |- _ => destruct H as [? H]; discriminate H
         end.

Lemma step_registry w l w' :
  tasks_inv w → registry_inv w → step w l w' → registry_inv w'.
Proof.
  intros Hinv Hreg Hstep. unfold registry_inv in *.
  inversion Hstep; subst; simpl in *; try done.
  - (* create start *)
    intros i r. destruct (decide (id = i)) as [->|Hne].
    + rewrite lookup_insert_eq. intros [= <-]. rec_auto.
    + rewrite lookup_insert_ne by done. apply Hreg.
  - (* env ok *)
    eapply registry_alter; [exact Hreg|]. intros r Hl.
    pose proof (creator_record _ t1 (CreateAwaitEnv id) t2 id r Hinv eq_refl
                  (bool_decide_eq_true_2 _ eq_refl) Hl) as Hnone.
    match goal with H : env_complete _ _ = true |- _ =>
      apply env_complete_set in H as [He Hep] end.
    pose proof (Hreg _ _ Hl) as Hr. rec_auto.
  - (* env failed *)
    eapply registry_alter; [exact Hreg|]. intros r Hl.
    pose proof (creator_record _ t1 (CreateAwaitEnv id) t2 id r Hinv eq_refl
                  (bool_decide_eq_true_2 _ eq_refl) Hl) as Hnone.
    pose proof (Hreg _ _ Hl) as Hr. rec_auto.
  - (* test ok *)
    eapply registry_alter; [exact Hreg|]. intros r Hl.
    pose proof (creator_record _ t1 (CreateAwaitTest id) t2 id r Hinv eq_refl
                  (bool_decide_eq_true_2 _ eq_refl) Hl) as Hnone.
    pose proof (task_status _ t1 (CreateAwaitTest id) t2 id TESTING r Hinv eq_refl
                  eq_refl Hl) as Hst.
    pose proof (Hreg _ _ Hl) as Hr. rec_auto.
  - (* test failed *)
    eapply registry_alter; [exact Hreg|]. intros r Hl.
    pose proof (creator_record _ t1 (CreateAwaitTest id) t2 id r Hinv eq_refl
                  (bool_decide_eq_true_2 _ eq_refl) Hl) as Hnone.
    pose proof (Hreg _ _ Hl) as Hr. rec_auto.
  - (* destroy mark *)
    eapply registry_alter; [exact Hreg|]. intros r Hl.
    pose proof (Hreg _ _ Hl) as Hr. rec_auto.
  - (* destroy finally *)
    intros i r Hl. destruct (decide (id = i)) as [->|Hne].
    + by rewrite lookup_destroy_finally_eq in Hl.
    + rewrite lookup_destroy_finally_ne in Hl by done. by apply Hreg.
  - (* health passed *)
    eapply registry_alter; [exact Hreg|]. intros r Hl.
    pose proof (Hreg _ _ Hl) as Hr. rec_auto.
  - (* alloc finish *)
    unfold allocate_dequeued, requeue.
    destruct (instances s !! id) as [inst|] eqn:E; [|exact Hreg].
    destruct (decide (status inst = READY)) as [Hrdy|]; [|exact Hreg]. simpl.
    eapply registry_alter; [exact Hreg|]. intros r Hl.
    assert (r = inst) as -> by congruence.
    pose proof (Hreg _ _ Hl) as Hr. rec_auto.
  - (* shutdown *)
    intros i r Hl. apply lookup_unwind in Hl. by apply Hreg.
Qed.

Lemma reachable_registry_inv pool max t i now w :
  reachable (initial pool max t i now) w → registry_inv w.
Proof.
  induction 1 as [|w l w' Hreach IH Hstep].
  - intros id r. simpl. by rewrite lookup_empty.
  - eapply step_registry; [|done..]. by eapply reachable_tasks_inv.
Qed.
End Records.

(** ** The HTTP handlers *)

Section Handlers.
Implicit Types (s : DockerScheduler) (id : string).



(** A grant, taken apart. *)
Lemma allocate_granted same_loop client now s g :
  alloc_result (allocate_instance same_loop None client now s) = Some g →
  ∃ id rest inst,
    ready_queue s = id :: rest ∧ instances s !! id = Some inst ∧ status inst = READY ∧
    g = with_allocation now (Some client) (with_status ALLOCATED inst) ∧
    alloc_sched (allocate_instance same_loop None client now s) =
      set_stats (incr_allocated (stats s))
        (update_instance (fun i => with_allocation now (Some client)
                                     (with_status ALLOCATED i)) id
           (set_ready_queue rest s)).
Proof.
  unfold allocate_instance, queue_get.
  destruct (ready_queue s) as [|id rest] eqn:Hq; [done|].
  unfold allocate_dequeued, requeue. simpl.
  destruct (instances s !! id) as [inst|] eqn:E; [|by destruct same_loop].
  destruct (decide (status inst = READY)) as [Hr|]; [|by destruct same_loop].
  simpl. intros [= <-]. by exists id, rest, inst.
Qed.

(** X5.  In every reachable state, an instance returned by
    [allocate_instance] is the one whose id stood at the head of the
    ready queue; it is registered under that id exactly as returned,
    ALLOCATED to the caller at the time of the call, and its [env_id]
    and [endpoint] are not empty. *)
Theorem granted_instance_is_usable (pool max t i now0 : Z) (w : World)
    (same_loop : bool) (client : string) (now : Z) (g : DockerInstance) :
  reachable (initial pool max t i now0) w →
  alloc_result (allocate_instance same_loop None client now (sched w)) = Some g →
  (∃ rest, ready_queue (sched w) = instance_id g :: rest ∧
           ready_queue (alloc_sched (allocate_instance same_loop None client now (sched w)))
             = rest) ∧
  instances (alloc_sched (allocate_instance same_loop None client now (sched w)))
    !! instance_id g = Some g ∧
  status g = ALLOCATED ∧ client_id g = Some client ∧ allocated_at g = Some now ∧
  env_id g ≠ "" ∧ endpoint g ≠ "".
Proof.
  intros Hreach Hg. pose proof (reachable_registry_inv _ _ _ _ _ _ Hreach) as Hreg.
  destruct (allocate_granted _ _ _ _ _ Hg) as (id & rest & inst & Hq & Hl & Hr & -> & ->).
  destruct (Hreg _ _ Hl) as (Hk & _ & He & _). simpl. rewrite Hk.
  split; [by exists rest|]. split; [by rewrite lookup_alter_eq, Hl|].
  repeat split; try done; apply He; auto.
Qed.



End Handlers.


Lemma granted_instance_is_usable_witness :
  let g := with_allocation 7 (Some "worker")
             (with_status ALLOCATED
                (ready_instance "inst_a" "env-a" "10.0.0.2:6060" 1 5)) in
  let a := allocate_instance true None "worker" 7 (sched pool_idle) in
  (∃ rest, ready_queue (sched pool_idle) = instance_id g :: rest ∧
           ready_queue (alloc_sched a) = rest) ∧
  instances (alloc_sched a) !! instance_id g = Some g ∧
  status g = ALLOCATED ∧ client_id g = Some "worker" ∧ allocated_at g = Some 7 ∧
  env_id g ≠ "" ∧ endpoint g ≠ "".
Proof.
  apply (granted_instance_is_usable 1 2 900 1200 0 pool_idle true "worker" 7).
  - apply reach_pool_idle.
  - reflexivity.
Defined.


(** ** Shutdown *)

Section Shutdown.
Implicit Types (s : DockerScheduler) (l : list string).

Lemma destroy_all_present d l s :
  NoDup l → (∀ id, id ∈ l → is_Some (instances s !! id)) →
  let s' := foldl (fun acc id => _destroy_instance d id acc) s l in
  (∀ j, instances s' !! j = if decide (j ∈ l) then None else instances s !! j) ∧
  stats s' = mkStats (total_created (stats s)) (total_allocated (stats s))
                     (total_destroyed (stats s) + Z.of_nat (length l))
                     (total_failed (stats s)) (start_time (stats s)) ∧
  ready_queue s' = ready_queue s ∧ running s' = running s ∧
  pool_size s' = pool_size s ∧ max_pool_size s' = max_pool_size s.
Proof.
  revert s. induction l as [|id l IH]; intros s Hnd Hin; simpl.
  - split; [done|]. rewrite Z.add_0_r. by destruct (stats s).
  - apply NoDup_cons in Hnd as [Hid Hnd].
    destruct (Hin id) as [inst E]; [by left|].
    rewrite (destroy_instance_present _ _ _ _ E).
    set (s1 := set_stats _ _).
    destruct (IH s1 Hnd) as (Hl & Hs & Hq & Hr & Hp & Hm).
    { intros id' Hin'. assert (id ≠ id') by (intros ->; done).
      subst s1. simpl. rewrite lookup_delete_ne by done. apply Hin. by right. }
    split; [|split; [|done]].
    + intros j. rewrite Hl. subst s1. simpl.
      destruct (decide (j ∈ l)) as [Hj|Hj].
      * rewrite decide_True; [done|by right].
      * destruct (decide (j = id)) as [->|Hne].
        -- rewrite decide_True by (by left). apply lookup_delete_eq.
        -- rewrite decide_False by (rewrite elem_of_cons; tauto).
           by rewrite lookup_delete_ne.
    + rewrite Hs. subst s1. simpl. f_equal. lia.
Qed.

Lemma shutdown_effect d s :
  instances (shutdown d s) = ∅ ∧
  running (shutdown d s) = false ∧
  ready_queue (shutdown d s) = ready_queue s ∧
  stats (shutdown d s) =
    mkStats (total_created (stats s)) (total_allocated (stats s))
            (total_destroyed (stats s) + total_instances s)
            (total_failed (stats s)) (start_time (stats s)).
Proof.
  unfold shutdown.
  destruct (destroy_all_present d ((map_to_list (instances s)).*1) (set_running false s))
    as (Hl & Hs & Hq & Hr & _).
  - apply NoDup_fst_map_to_list.
  - intros id (kv & -> & Hin)%list_elem_of_fmap. destruct kv as [k v].
    apply elem_of_map_to_list in Hin. simpl. eauto.
  - split; [|split; [done|split; [done|]]].
    + apply map_eq. intros j. rewrite Hl, lookup_empty. simpl.
      destruct (decide (j ∈ (map_to_list (instances s)).*1)) as [|Hj]; [done|].
      destruct (instances s !! j) as [v|] eqn:E; [|done].
      destruct Hj. apply list_elem_of_fmap. exists (j, v). split; [done|].
      by apply elem_of_map_to_list.
    + rewrite Hs. simpl. unfold total_instances.
      by rewrite length_fmap, length_map_to_list.
Qed.
End Shutdown.

(** X8.  [shutdown], run to its end, leaves the registry empty with the
    flag down; [total_destroyed] has grown by the number of instances
    that were registered; the ready queue is left as it was, stale ids
    included; a second shutdown changes nothing; and from then on every
    [allocate_instance] returns [None]. *)
Theorem shutdown_empties_registry (d d' : string → DeleteOutcome) (s : DockerScheduler) :
  instances (shutdown d s) = ∅ ∧
  running (shutdown d s) = false ∧
  total_destroyed (stats (shutdown d s)) = total_destroyed (stats s) + total_instances s ∧
  ready_queue (shutdown d s) = ready_queue s ∧
  shutdown d' (shutdown d s) = shutdown d s ∧
  (∀ same_loop fault client now,
     alloc_result (allocate_instance same_loop fault client now (shutdown d s)) = None).
Proof.
  destruct (shutdown_effect d s) as (Hi & Hr & Hq & Hs).
  split; [done|]. split; [done|]. split; [by rewrite Hs|]. split; [done|]. split.
  - unfold shutdown at 1. rewrite Hi, map_to_list_empty. simpl.
    destruct (shutdown d s) eqn:E. simpl in *. by rewrite Hr.
  - intros same_loop fault client now. unfold allocate_instance, queue_get.
    destruct fault; [done|]. destruct (ready_queue (shutdown d s)) as [|id rest]; [done|].
    unfold allocate_dequeued, requeue. simpl. rewrite Hi, lookup_empty.
    by destruct same_loop.
Qed.

Section Stopped.
Implicit Types (s : DockerScheduler) (w : World).

Lemma running_destroy_finally id s : running (destroy_finally id s) = running s.
Proof. unfold destroy_finally. by destruct (instances s !! id). Qed.

Lemma running_unwind ts s : running (unwind ts s) = running s.
Proof.
  revert s. induction ts as [|t ts IH]; intros s; simpl; [done|].
  destruct t as [| | |k i|k i| | |]; try apply IH.
  destruct k; try apply IH.
  by rewrite IH, running_destroy_finally.
Qed.

Lemma running_allocate_dequeued client now id s :
  running (alloc_sched (allocate_dequeued true client now id s)) = running s.
Proof.
  unfold allocate_dequeued, requeue. destruct (instances s !! id) as [inst|]; [|done].
  by destruct (decide (status inst = READY)).
Qed.

(** No step raises the flag. *)
Lemma step_running w l w' :
  step w l w' → running (sched w') = running (sched w) ∨ running (sched w') = false.
Proof.
  intros Hstep. inversion Hstep; subst; simpl; auto.
  - left. apply running_destroy_finally.
  - left. apply running_allocate_dequeued.
  - right. by rewrite running_unwind.
Qed.

Lemma step_stopped w l w' : stopped_inv w → step w l w' → stopped_inv w'.
Proof.
  unfold stopped_inv. intros Hinv Hstep.
  inversion Hstep; subst; simpl in *; try done.
  - intros Hr. rewrite Hr in *. discriminate.
  - intros Hr. by specialize (Hinv Hr).
  - by rewrite running_destroy_finally.
  - by rewrite running_allocate_dequeued.
Qed.

Lemma reachable_stopped_inv pool max t i now w :
  reachable (initial pool max t i now) w → stopped_inv w.
Proof.
  induction 1 as [|w l w' _ IH Hstep]; [|by eapply step_stopped].
  unfold stopped_inv. simpl. discriminate.
Qed.
End Stopped.

(** X9.  Once the flag is down it stays down: in a reachable state with
    [running] false the pool manager is cancelled, and whatever step
    follows is neither a pool-manager cycle, nor the start of a creation,
    nor the launch of a health probe, and adds no id to the registry. *)
Theorem stopped_scheduler_only_shrinks (pool max t i now : Z)
    (w : World) (l : Label) (w' : World) :
  reachable (initial pool max t i now) w →
  running (sched w) = false →
  step w l w' →
  running (sched w') = false ∧
  pool_manager w' = PMCancelled ∧
  dom (instances (sched w')) ⊆ dom (instances (sched w)) ∧
  l ≠ PoolCycle ∧
  (∀ id now', l ≠ CreateStart id now' ∧ l ≠ HealthLaunch id now').
Proof.
  intros Hreach Hr Hstep.
  pose proof (reachable_stopped_inv _ _ _ _ _ _ Hreach Hr) as Hpm.
  pose proof (reachable_tasks_inv _ _ _ _ _ _ Hreach) as Hinv.
  pose proof (inv_children _ Hinv) as Hch. rewrite Hpm in Hch.
  specialize (Hch ltac:(done)).
  inversion Hstep; subst; simpl in *; try discriminate;
    try (apply Forall_app in Hch as [_ [Hc _]%Forall_cons]; discriminate);
    try (repeat split; try done; try (by rewrite dom_alter_L); fail).
  - rewrite running_destroy_finally. repeat split; try done.
    intros j [r Hj]%elem_of_dom. apply elem_of_dom.
    destruct (decide (id = j)) as [->|Hne].
    + by rewrite lookup_destroy_finally_eq in Hj.
    + rewrite lookup_destroy_finally_ne in Hj by done. eauto.
  - congruence.
  - rewrite running_allocate_dequeued. repeat split; try done.
    unfold allocate_dequeued, requeue.
    destruct (instances s !! id) as [inst|]; [|done].
    destruct (decide (status inst = READY)); [|done]. simpl. by rewrite dom_alter_L.
  - rewrite running_unwind. repeat split; try done.
    intros j [r Hj]%elem_of_dom. apply lookup_unwind in Hj. apply elem_of_dom. eauto.
Qed.

(** ** Reports and scans *)

Section Report.
Implicit Types (s : DockerScheduler) (l : list DockerInstance).

Lemma status_value_inj st st' : status_value st = status_value st' → st = st'.
Proof. by destruct st, st'. Qed.

Lemma tally_cons st i l :
  tally st (i :: l) = (if decide (status i = st) then 1 else 0) + tally st l.
Proof.
  unfold tally. rewrite filter_cons. destruct (decide (status i = st)); simpl length; lia.
Qed.

Lemma fold_counts l (m : gmap string Z) st n :
  m !! status_value st = Some n →
  foldl (fun acc inst => alter (fun n => n + 1) (status_value (status inst)) acc) m l
    !! status_value st = Some (n + tally st l).
Proof.
  revert m n. induction l as [|i l IH]; intros m n Hm; simpl.
  - unfold tally. simpl. by rewrite Z.add_0_r.
  - rewrite tally_cons. destruct (decide (status i = st)) as [->|Hne].
    + erewrite IH; [|by rewrite lookup_alter_eq, Hm]. f_equal. lia.
    + erewrite IH; [f_equal; lia|].
      rewrite lookup_alter_ne; [done|]. intros E. by apply status_value_inj in E.
Qed.

Lemma tally_total l :
  tally CREATING l + tally TESTING l + tally READY l + tally ALLOCATED l +
  tally DESTROYING l + tally FAILED l = Z.of_nat (length l).
Proof.
  induction l as [|i l IH]; [done|]. rewrite !tally_cons. simpl length.
  destruct (status i); simpl; lia.
Qed.
End Report.

(** X10.  The per-status counters built by [_log_stats] and
    [get_status_async] hold, under each status value, the number of
    registered instances with that status; the six of them add up to
    [total_instances]; and the report's [ready_count] is the length of
    the ready queue, not the READY counter. *)
Theorem status_counts_add_up (s : DockerScheduler) :
  (∀ st, status_count (status_value st) s = Some (count_status st s)) ∧
  count_status CREATING s + count_status TESTING s + count_status READY s +
  count_status ALLOCATED s + count_status DESTROYING s + count_status FAILED s
    = total_instances s ∧
  report_allocated_count (get_status_async s) = Some (allocated_count s) ∧
  report_creating_count (get_status_async s) = Some (creating_count s) ∧
  report_testing_count (get_status_async s) = Some (testing_count s) ∧
  report_total_instances (get_status_async s) = total_instances s ∧
  report_ready_count (get_status_async s) = ready_count s.
Proof.
  assert (∀ st, status_count (status_value st) s = Some (count_status st s)) as Hc.
  { intros st. unfold status_count, status_counts, count_status.
    rewrite (fold_counts _ _ st 0) by (by destruct st). by rewrite Z.add_0_l. }
  split; [done|]. split.
  - unfold count_status, total_instances.
    rewrite <- length_map_to_list, <- (length_fmap snd). apply tally_total.
  - repeat split; try done; [apply (Hc ALLOCATED)|apply (Hc CREATING)|apply (Hc TESTING)].
Qed.

Section Scan.
Implicit Types (s : DockerScheduler) (id : string).

Lemma elem_of_health_scan now s id :
  id ∈ health_scan now s ↔
  ∃ inst, instances s !! id = Some inst ∧ status inst = READY ∧
          stale now (health_check_interval s) inst = true.
Proof.
  unfold health_scan. rewrite list_elem_of_fmap. split.
  - intros ([k v] & -> & Hin). apply list_elem_of_filter in Hin as [[Hr Hs] Hin].
    apply elem_of_map_to_list in Hin. simpl in *. eauto.
  - intros (inst & Hl & Hr & Hs). exists (id, inst). split; [done|].
    apply list_elem_of_filter. split; [done|]. by apply elem_of_map_to_list.
Qed.
End Scan.

(** X11.  One scan of [_health_checker] names no id twice and picks
    exactly the registered instances that are READY and were never
    checked or were last checked more than one interval ago.  An
    instance whose probe has just passed is not picked again until more
    than one interval has gone by, and one whose probe failed is never
    picked again (its record is gone). *)
Theorem health_scan_selection (d : string → DeleteOutcome) (id : string)
    (s : DockerScheduler) (checked_at now : Z) (p : ProbeOutcome) :
  NoDup (health_scan now s) ∧
  (id ∈ health_scan now s ↔
     ∃ inst, instances s !! id = Some inst ∧ status inst = READY ∧
             match last_health_check inst with
             | None => True
             | Some t => health_check_interval s < now - t
             end) ∧
  (probe_passed p = true → now - checked_at ≤ health_check_interval s →
     id ∉ health_scan now (_check_instance_health d id p checked_at s)) ∧
  (probe_passed p = false →
     id ∉ health_scan now (_check_instance_health d id p checked_at s)).
Proof.
  split; [|split; [|split]].
  - unfold health_scan. eapply NoDup_fmap_fst.
    + intros k v v' H1 H2. apply list_elem_of_filter in H1 as [_ H1], H2 as [_ H2].
      apply elem_of_map_to_list in H1, H2. congruence.
    + apply NoDup_filter, NoDup_map_to_list.
  - rewrite elem_of_health_scan. split.
    + intros (inst & Hl & Hr & Hs). exists inst. split; [done|]. split; [done|].
      unfold stale in Hs. destruct (last_health_check inst); [|done].
      by apply Z.ltb_lt in Hs.
    + intros (inst & Hl & Hr & Hs). exists inst. split; [done|]. split; [done|].
      unfold stale. destruct (last_health_check inst); [|done]. by apply Z.ltb_lt.
  - intros Hp Hle. rewrite elem_of_health_scan. intros (inst & Hl & _ & Hs).
    unfold _check_instance_health in Hl, Hs. rewrite Hp in Hl, Hs. simpl in Hl, Hs.
    rewrite lookup_alter_eq in Hl. destruct (instances s !! id) as [r|]; [|done].
    simpl in Hl. injection Hl as <-. unfold stale in Hs. simpl in Hs.
    apply Z.ltb_lt in Hs. lia.
  - intros Hp. rewrite elem_of_health_scan. intros (inst & Hl & _).
    unfold _check_instance_health, _handle_unhealthy_instance in Hl. rewrite Hp in Hl.
    by rewrite lookup_destroy_instance_eq in Hl.
Qed.

(** ** Counters *)

Section Counters.
Implicit Types (s : DockerScheduler).

Lemma stats_le_refl st : stats_le st st.
Proof. unfold stats_le. lia. Qed.

Lemma stats_le_trans st1 st2 st3 : stats_le st1 st2 → stats_le st2 st3 → stats_le st1 st3.
Proof. unfold stats_le. intros (?&?&?&?&?) (?&?&?&?&?). repeat split; try lia; congruence. Qed.

Lemma same_config_trans s1 s2 s3 : same_config s1 s2 → same_config s2 s3 → same_config s1 s3.
Proof. unfold same_config. intros (?&?&?&?) (?&?&?&?). repeat split; congruence. Qed.

Lemma destroy_finally_counters id s :
  stats_le (stats s) (stats (destroy_finally id s)) ∧ same_config s (destroy_finally id s).
Proof.
  unfold destroy_finally, stats_le, same_config.
  destruct (instances s !! id); simpl; repeat split; lia.
Qed.

Lemma unwind_counters ts s :
  stats_le (stats s) (stats (unwind ts s)) ∧ same_config s (unwind ts s).
Proof.
  revert s. induction ts as [|t ts IH]; intros s; simpl.
  - split; [apply stats_le_refl|by repeat split].
  - destruct t as [| | |k i|k i| | |]; try apply IH.
    destruct k; try apply IH.
    destruct (destroy_finally_counters i s) as [H1 H2].
    destruct (IH (destroy_finally i s)) as [H3 H4].
    split; [by eapply stats_le_trans|by eapply same_config_trans].
Qed.

Lemma allocate_dequeued_counters client now id s :
  stats_le (stats s) (stats (alloc_sched (allocate_dequeued true client now id s))) ∧
  same_config s (alloc_sched (allocate_dequeued true client now id s)).
Proof.
  unfold allocate_dequeued, requeue, stats_le, same_config.
  destruct (instances s !! id) as [inst|]; [|simpl; repeat split; lia].
  destruct (decide (status inst = READY)); simpl; repeat split; lia.
Qed.
End Counters.

(** X12.  In every state reachable from a freshly started scheduler the
    constructor's arguments and [start_time] are as given, the four
    counters are non-negative, and no step makes any of them smaller. *)
Theorem counters_never_decrease (pool max t i now : Z) (w : World) :
  reachable (initial pool max t i now) w →
  pool_size (sched w) = pool ∧ max_pool_size (sched w) = max ∧
  api_test_timeout (sched w) = t ∧ health_check_interval (sched w) = i ∧
  start_time (stats (sched w)) = now ∧
  0 ≤ total_created (stats (sched w)) ∧ 0 ≤ total_allocated (stats (sched w)) ∧
  0 ≤ total_destroyed (stats (sched w)) ∧ 0 ≤ total_failed (stats (sched w)) ∧
  (∀ l w', step w l w' →
     total_created (stats (sched w)) ≤ total_created (stats (sched w')) ∧
     total_allocated (stats (sched w)) ≤ total_allocated (stats (sched w')) ∧
     total_destroyed (stats (sched w)) ≤ total_destroyed (stats (sched w')) ∧
     total_failed (stats (sched w)) ≤ total_failed (stats (sched w'))).
Proof.
  assert (∀ w l w', step w l w' →
            stats_le (stats (sched w)) (stats (sched w')) ∧ same_config (sched w) (sched w'))
    as Hstep.
  { intros w1 l w2 H. inversion H; subst; simpl;
      try (split; [unfold stats_le; simpl; lia|by repeat split]).
    - apply destroy_finally_counters.
    - apply allocate_dequeued_counters.
    - destruct (unwind_counters ts (set_running false s)) as [H1 H2]. by split. }
  intros Hreach.
  assert (stats_le (mkStats 0 0 0 0 now) (stats (sched w)) ∧
          same_config (new_scheduler pool max t i now) (sched w)) as [Hs Hc].
  { induction Hreach as [|w l w' _ [IH1 IH2] Hst].
    - split; [apply stats_le_refl|by repeat split].
    - destruct (Hstep _ _ _ Hst) as [H1 H2].
      split; [by eapply stats_le_trans|by eapply same_config_trans]. }
  destruct Hs as (?&?&?&?&?). destruct Hc as (?&?&?&?). simpl in *.
  do 9 (split; [done|]). intros l w' Hst.
  by destruct (Hstep _ _ _ Hst) as [(?&?&?&?&_) _].
Qed.

Lemma stopped_scheduler_only_shrinks_witness :
  running (sched world_sweeping) = false ∧
  pool_manager world_sweeping = PMCancelled ∧
  dom (instances (sched world_sweeping)) ⊆ dom (instances (sched world_stopping)) ∧
  ShutdownDestroyAll ≠ PoolCycle ∧
  (∀ id now', ShutdownDestroyAll ≠ CreateStart id now' ∧
              ShutdownDestroyAll ≠ HealthLaunch id now').
Proof.
  apply (stopped_scheduler_only_shrinks 1 1 900 1200 0 world_stopping
           ShutdownDestroyAll world_sweeping).
  - apply reach_stopping.
  - reflexivity.
  - apply (step_shutdown_destroy_all (sched world_stopping) PMCancelled [] []).
Defined.

Lemma counters_never_decrease_witness :
  pool_size (sched pool_granted) = 1 ∧ max_pool_size (sched pool_granted) = 2 ∧
  api_test_timeout (sched pool_granted) = 900 ∧
  health_check_interval (sched pool_granted) = 1200 ∧
  start_time (stats (sched pool_granted)) = 0 ∧
  0 ≤ total_created (stats (sched pool_granted)) ∧
  0 ≤ total_allocated (stats (sched pool_granted)) ∧
  0 ≤ total_destroyed (stats (sched pool_granted)) ∧
  0 ≤ total_failed (stats (sched pool_granted)) ∧
  (∀ l w', step pool_granted l w' →
     total_created (stats (sched pool_granted)) ≤ total_created (stats (sched w')) ∧
     total_allocated (stats (sched pool_granted)) ≤ total_allocated (stats (sched w')) ∧
     total_destroyed (stats (sched pool_granted)) ≤ total_destroyed (stats (sched w')) ∧
     total_failed (stats (sched pool_granted)) ≤ total_failed (stats (sched w'))).
Proof.
  apply (counters_never_decrease 1 2 900 1200 0 pool_granted).
  apply reach_pool_granted.
Defined.

Section DeleteEnv.
Implicit Types (turns : list DeleteTurn) (n : nat).

Lemma delete_env_no_unexpected turns n :
  (n < 3)%nat → occurrences is_unexpected turns = 0%nat →
  delete_env turns n =
    if (3 <=? n + occurrences is_not_found turns)%nat then Some Confirmed else None.
Proof.
  revert n. induction turns as [|t turns IH]; intros n Hn Hu.
  - cbn [delete_env occurrences]. rewrite Nat.add_0_r.
    destruct (Nat.leb_spec 3 n); [lia|done].
  - cbn [occurrences] in *. destruct t; cbn [delete_env is_not_found is_unexpected] in *;
      try discriminate; rewrite ?Nat.add_0_l in *.
    + by apply IH.
    + destruct (Nat.leb_spec 3 (S n)) as [H3|H3].
      * destruct (Nat.leb_spec 3 (n + (1 + occurrences is_not_found turns))); [done|lia].
      * rewrite IH by (done || lia).
        by replace (S n + occurrences is_not_found turns)%nat
          with (n + (1 + occurrences is_not_found turns))%nat by lia.
    + by apply IH.
Qed.

Lemma delete_env_extend turns more n e :
  delete_env turns n = Some e → delete_env (turns ++ more) n = Some e.
Proof.
  revert n. induction turns as [|t turns IH]; intros n; [done|].
  rewrite <- app_comm_cons. destruct t; cbn [delete_env]; try apply IH; [|done].
  destruct (3 <=? S n)%nat; [done|apply IH].
Qed.

Lemma delete_env_abandoned turns more n :
  occurrences is_unexpected turns = 0%nat →
  (n + occurrences is_not_found turns < 3)%nat →
  delete_env (turns ++ Unexpected :: more) n = Some Abandoned.
Proof.
  revert n. induction turns as [|t turns IH]; intros n Hu Hn; [done|].
  cbn [occurrences] in *. rewrite <- app_comm_cons.
  destruct t; cbn [delete_env is_not_found is_unexpected] in *; try discriminate.
  - by apply IH.
  - destruct (Nat.leb_spec 3 (S n)); [lia|]. apply IH; [done|lia].
  - by apply IH.
Qed.
End DeleteEnv.

(** X13.  [TioneEnvManager.delete_env] reports nothing to its caller and
    leaves its loop in two ways only.  As long as no error other than an
    SDK exception occurs, it ends exactly when the provider has answered
    "record not found request" three times, however many other answers
    (the environment still described, other SDK errors) come in between,
    and it is still looping while fewer than three have come.  The first
    unexpected error before that ends the loop at once with the deletion
    unconfirmed.  Answers arriving after the loop has ended change
    nothing. *)
Theorem delete_env_needs_three_not_found (turns more : list DeleteTurn) :
  (occurrences is_unexpected turns = 0%nat →
     (delete_env turns 0 = Some Confirmed ↔ (3 ≤ occurrences is_not_found turns)%nat) ∧
     (delete_env turns 0 = None ↔ (occurrences is_not_found turns < 3)%nat) ∧
     delete_env turns 0 ≠ Some Abandoned) ∧
  (occurrences is_unexpected turns = 0%nat →
   (occurrences is_not_found turns < 3)%nat →
     delete_env (turns ++ Unexpected :: more) 0 = Some Abandoned) ∧
  (∀ e, delete_env turns 0 = Some e → delete_env (turns ++ more) 0 = Some e).
Proof.
  split; [|split].
  - intros Hu. rewrite (delete_env_no_unexpected turns 0) by (done || lia).
    rewrite Nat.add_0_l.
    destruct (Nat.leb_spec 3 (occurrences is_not_found turns)); repeat split; try done; lia.
  - intros Hu Hn. by apply delete_env_abandoned.
  - intros e. apply delete_env_extend.
Qed.

Section CreateEnv.
Implicit Types (describes : list Describe).

Lemma still_creating_spec status :
  still_creating status = true ↔ status = "" ∨ status = "CREATED".
Proof.
  unfold still_creating. by rewrite orb_true_iff, !String.eqb_eq.
Qed.

Lemma create_env_poll_returns describes st0 ep0 st ep :
  create_env_poll describes st0 ep0 = Some (inr (st, ep)) →
  still_creating st = false ∧
  ((still_creating st0 = false ∧ st = st0 ∧ ep = ep0) ∨
   (still_creating st0 = true ∧
    ∃ waiting rest,
      describes = waiting ++ Described st ep :: rest ∧ Forall keeps_polling waiting)).
Proof.
  revert st0 ep0. induction describes as [|d describes IH]; intros st0 ep0;
    cbn [create_env_poll]; destruct (still_creating st0) eqn:E; try done;
    try (intros [= <- <-]; auto).
  destruct d as [st1 ep1|msg]; [|done].
  intros H. destruct (IH _ _ H) as [Hdone [(E1 & -> & ->)|(E1 & waiting & rest & -> & Hw)]].
  - split; [done|]. right. split; [done|]. exists [], describes. split; [done|constructor].
  - split; [done|]. right. split; [done|].
    exists (Described st1 ep1 :: waiting), rest. split; [done|].
    constructor; [by exists st1, ep1|done].
Qed.

Lemma create_env_poll_waits waiting st ep rest st0 ep0 :
  still_creating st0 = true → Forall keeps_polling waiting → still_creating st = false →
  create_env_poll (waiting ++ Described st ep :: rest) st0 ep0 = Some (inr (st, ep)).
Proof.
  intros E0 Hw Hst. revert st0 ep0 E0.
  induction Hw as [|d waiting (st1 & ep1 & -> & E1) _ IH]; intros st0 ep0 E0.
  - cbn [app create_env_poll]. rewrite E0.
    destruct rest; cbn [create_env_poll]; by rewrite Hst.
  - rewrite <- app_comm_cons. cbn [create_env_poll]. rewrite E0. by apply IH.
Qed.
End CreateEnv.

(** X14.  [TioneEnvManager.create_env] (not in debug mode) returns the
    environment id given by the create call together with the endpoint
    of the first [describe_env] answer whose status is neither empty nor
    "CREATED", every earlier answer having had one of these two statuses;
    and it returns in no other way.  The status that ends the polling is
    otherwise not looked at. *)
Theorem create_env_returns_first_settled (env_id : string) (describes : list Describe)
    (e ep : string) :
  create_env env_id describes = Some (EnvReturned e ep) ↔
  e = env_id ∧
  ∃ waiting st rest,
    describes = waiting ++ Described st ep :: rest ∧
    Forall keeps_polling waiting ∧ st ≠ "" ∧ st ≠ "CREATED".
Proof.
  unfold create_env. split.
  - destruct (create_env_poll describes "" "") as [[msg|[st ep']]|] eqn:H; try done.
    intros [= <- <-]. split; [done|].
    destruct (create_env_poll_returns _ _ _ _ _ H)
      as [Hdone [(E & _)|(_ & waiting & rest & -> & Hw)]]; [done|].
    exists waiting, st, rest. split; [done|]. split; [done|].
    split; intros ->; done.
  - intros (-> & waiting & st & rest & -> & Hw & H1 & H2).
    rewrite (create_env_poll_waits waiting st ep rest "" ""); [done..|].
    destruct (still_creating st) eqn:E; [|done].
    apply still_creating_spec in E as [|]; done.
Qed.

Section ReadinessTest.
Implicit Types (turns : list (Z * ProbeTurn)).

Lemma test_instance_api_true timeout start turns :
  _test_instance_api timeout start turns = Some true →
  ∃ tried clock c rest,
    turns = tried ++ (clock, ProbeAnswered c) :: rest ∧
    Forall (retried timeout start) tried ∧
    clock - start < timeout ∧ status_accepted c = true.
Proof.
  induction turns as [|[clock turn] turns IH]; [done|]. cbn [_test_instance_api].
  destruct (Z.ltb_spec (clock - start) timeout) as [Hin|]; [|done].
  destruct turn as [c| |]; [|..|done].
  - destruct (status_accepted c) eqn:Hp.
    + intros _. exists [], clock, c, turns. split; [done|]. split; [constructor|done].
    + intros H. destruct (IH H) as (tried & clock' & c' & rest & -> & Ht & Hc & Hp').
      exists ((clock, ProbeAnswered c) :: tried), clock', c', rest.
      split; [done|]. split; [|done]. constructor; [|done].
      split; [done|]. right. by exists c.
  - intros H. destruct (IH H) as (tried & clock' & c' & rest & -> & Ht & Hc & Hp').
    exists ((clock, ProbeRequestError) :: tried), clock', c', rest.
    split; [done|]. split; [|done]. constructor; [|done]. split; [done|]. by left.
Qed.

Lemma test_instance_api_retries timeout start tried rest :
  Forall (retried timeout start) tried →
  _test_instance_api timeout start (tried ++ rest) = _test_instance_api timeout start rest.
Proof.
  induction 1 as [|[clock turn] tried [Hc Ht] _ IH]; [done|].
  rewrite <- app_comm_cons. cbn [_test_instance_api]. simpl in Hc, Ht.
  destruct (Z.ltb_spec (clock - start) timeout); [|lia].
  destruct Ht as [->|(c & -> & Hp)]; [done|]. by rewrite Hp.
Qed.
End ReadinessTest.

(** X15.  [_test_instance_api] over the turns of its loop, each with the
    clock read by the loop test.  It returns [True] exactly when some
    answer with status 200, 201 or 202 arrives at a turn begun before the
    timeout, all earlier turns having begun before the timeout and ended
    in a request error or in an answer with another status.  It returns
    [False] as soon as a turn begins at or past the timeout, or the
    request fails with an unexpected error.  While every turn is retried
    the loop has not returned. *)
Theorem readiness_test_verdict (timeout start : Z) (turns : list (Z * ProbeTurn)) :
  (_test_instance_api timeout start turns = Some true ↔
     ∃ tried clock c rest,
       turns = tried ++ (clock, ProbeAnswered c) :: rest ∧
       Forall (retried timeout start) tried ∧
       clock - start < timeout ∧ (c = 200 ∨ c = 201 ∨ c = 202)) ∧
  (∀ tried clock turn rest,
     turns = tried ++ (clock, turn) :: rest →
     Forall (retried timeout start) tried →
     timeout ≤ clock - start ∨ turn = ProbeUnexpected →
     _test_instance_api timeout start turns = Some false) ∧
  (Forall (retried timeout start) turns → _test_instance_api timeout start turns = None).
Proof.
  assert (∀ c, status_accepted c = true ↔ c = 200 ∨ c = 201 ∨ c = 202) as Hp.
  { intros c. unfold status_accepted. rewrite !orb_true_iff, !Z.eqb_eq. tauto. }
  split; [|split].
  - split.
    + intros H. destruct (test_instance_api_true _ _ _ H)
        as (tried & clock & c & rest & -> & Ht & Hc & Hpass).
      exists tried, clock, c, rest. by rewrite <- Hp.
    + intros (tried & clock & c & rest & -> & Ht & Hc & Hpass).
      rewrite test_instance_api_retries by done. cbn [_test_instance_api].
      destruct (Z.ltb_spec (clock - start) timeout); [|lia].
      apply Hp in Hpass. by rewrite Hpass.
  - intros tried clock turn rest -> Ht Hend.
    rewrite test_instance_api_retries by done. cbn [_test_instance_api].
    destruct (Z.ltb_spec (clock - start) timeout) as [Hin|]; [|done].
    destruct Hend as [Hlate| ->]; [lia|done].
  - intros Ht. rewrite <- (app_nil_r turns). by rewrite test_instance_api_retries.
Qed.

Lemma env_complete_spec e ep : env_complete e ep = true ↔ e ≠ "" ∧ ep ≠ "".
Proof.
  unfold env_complete. rewrite andb_true_iff, !negb_true_iff.
  by rewrite <- !not_true_iff_false, !String.eqb_eq.
Qed.

Lemma create_instance_delete_request_spec id now env probe_ok s e :
  create_instance_delete_request id now env probe_ok s = Some e ↔
  ∃ ep, env = EnvReturned e ep ∧ e ≠ "" ∧ ep ≠ "" ∧ probe_ok = false.
Proof.
  unfold create_instance_delete_request, destroy_request.
  destruct env as [e0 ep0|msg].
  - destruct (env_complete e0 ep0) eqn:Hc.
    + apply env_complete_spec in Hc as [He Hep]. destruct probe_ok.
      * split; [done|]. by intros (? & _ & _ & _ & ?).
      * simpl. rewrite !lookup_alter_eq, lookup_insert_eq. simpl.
        destruct (String.eqb_spec e0 ""); [done|]. split.
        -- intros [= ->]. by exists ep0.
        -- by intros (? & [= -> _] & _).
    + simpl. rewrite lookup_alter_eq, lookup_insert_eq. simpl. split; [done|].
      intros (ep & [= -> ->] & He & Hep & _).
      assert (env_complete e ep = true) by by apply env_complete_spec. congruence.
  - simpl. rewrite lookup_alter_eq, lookup_insert_eq. simpl. split; [done|].
    by intros (? & ? & _).
Qed.

Lemma create_instance_returns id now env probe_ok ready_at d s :
  is_Some (snd (_create_instance id now env probe_ok ready_at d s)) ↔
  ∃ e ep, env = EnvReturned e ep ∧ e ≠ "" ∧ ep ≠ "" ∧ probe_ok = true.
Proof.
  unfold _create_instance. destruct env as [e ep|msg].
  - destruct (env_complete e ep) eqn:Hc.
    + apply env_complete_spec in Hc as [He Hep]. destruct probe_ok.
      * simpl. rewrite !lookup_alter_eq, lookup_insert_eq. simpl. split; [|by eauto].
        intros _. by exists e, ep.
      * simpl. split; [by intros [??]|]. by intros (? & ? & _ & _ & _ & ?).
    + simpl. split; [by intros [??]|].
      intros (e' & ep' & [= -> ->] & He & Hep & _).
      assert (env_complete e' ep' = true) by by apply env_complete_spec. congruence.
  - simpl. split; [by intros [??]|]. by intros (? & ? & ? & _).
Qed.

(** X16.  [create_env], [_create_instance] and [_destroy_instance]
    together.  Once the provider's status has left "" and "CREATED",
    whatever it has become, [create_env] returns the environment id with
    the endpoint then described.  [_create_instance] returns an instance
    only if both are non-empty and the readiness test passed.  Its
    failure path asks the provider to delete the environment only if
    both were non-empty and the test failed: an environment returned
    with an empty endpoint is never recorded on the instance, so
    [_destroy_instance] finds no [env_id] and sends no deletion. *)
Theorem unfinished_environment_not_deleted (env_id : string)
    (waiting : list Describe) (st ep : string) (rest : list Describe)
    (id : string) (now : Z) (ok : bool) (ready_at : Z) (d : string → DeleteOutcome)
    (s : DockerScheduler) :
  Forall keeps_polling waiting → st ≠ "" → st ≠ "CREATED" →
  let out := EnvReturned env_id ep in
  create_env env_id (waiting ++ Described st ep :: rest) = Some out ∧
  (is_Some (snd (_create_instance id now out ok ready_at d s)) ↔
     env_id ≠ "" ∧ ep ≠ "" ∧ ok = true) ∧
  (∀ e, create_instance_delete_request id now out ok s = Some e ↔
     e = env_id ∧ env_id ≠ "" ∧ ep ≠ "" ∧ ok = false).
Proof.
  intros Hw H1 H2 out. subst out. split; [|split].
  - unfold create_env. rewrite (create_env_poll_waits waiting st ep rest "" ""); [done..|].
    destruct (still_creating st) eqn:E; [|done].
    apply still_creating_spec in E as [|]; done.
  - rewrite create_instance_returns. split.
    + by intros (e' & ep' & [= <- <-] & ?).
    + intros ?. by exists env_id, ep.
  - intros e. rewrite create_instance_delete_request_spec. split.
    + by intros (ep' & [= <- <-] & ?).
    + intros (-> & ?). by exists ep.
Qed.

Lemma unfinished_environment_not_deleted_witness :
  let s := sched pool_idle in
  let d := fun _ : string => DeleteOk in
  let out := EnvReturned "env-b" "" in
  create_env "env-b" ([Described "CREATED" ""] ++ Described "FAILED" "" :: []) = Some out ∧
  (is_Some (snd (_create_instance "inst_b" 9 out true 10 d s)) ↔
     "env-b" ≠ "" ∧ "" ≠ "" ∧ true = true) ∧
  (∀ e, create_instance_delete_request "inst_b" 9 out true s = Some e ↔
     e = "env-b" ∧ "env-b" ≠ "" ∧ "" ≠ "" ∧ true = false).
Proof.
  apply (unfinished_environment_not_deleted "env-b" [Described "CREATED" ""] "FAILED" ""
           [] "inst_b" 9 true 10 (fun _ => DeleteOk) (sched pool_idle)).
  - constructor; [|constructor]. by exists "CREATED", "".
  - discriminate.
  - discriminate.
Defined.

Section RequestLoop.
Variable reply : nat → AllocateReply.

Lemma wait_time_bounds a : 0 ≤ wait_time a ≤ 18.
Proof.
  unfold wait_time, max_retries. destruct (Nat.ltb_spec a (10 - 1)); lia.
Qed.

Lemma request_attempts_bounds r a :
  (requests (request_attempts reply r a) ≤ r)%nat ∧
  0 ≤ slept (request_attempts reply r a) ≤ 35 * Z.of_nat r.
Proof.
  revert a. induction r as [|r IH]; intros a; cbn [request_attempts].
  - simpl. lia.
  - specialize (IH (S a)). pose proof (wait_time_bounds a).
    destruct (reply a); cbn [after_sleep requests slept]; unfold retry_delay_503; lia.
Qed.

Lemma request_attempts_granted r a i ep :
  granted (request_attempts reply r a) = Some (i, ep) ↔
  ∃ k, (a ≤ k < a + r)%nat ∧ reply k = Granted i ep ∧
       (∀ j, (a ≤ j < k)%nat → refused (reply j)) ∧
       requests (request_attempts reply r a) = S (k - a).
Proof.
  revert a. induction r as [|r IH]; intros a; cbn [request_attempts].
  - split; [done|]. intros (k & ? & _). lia.
  - destruct (reply a) as [i0 ep0| |] eqn:Ha; cbn [after_sleep granted requests].
    + split.
      * intros [= -> ->]. exists a. split; [lia|]. split; [done|].
        split; [intros; lia|]. f_equal. lia.
      * intros (k & Hk & Hg & Hno & _).
        destruct (decide (k = a)) as [->|Hne]; [congruence|].
        destruct (Hno a ltac:(lia) i0 ep0 Ha).
    + rewrite IH. split.
      * intros (k & Hk & Hg & Hno & Hn). exists k. split; [lia|]. split; [done|]. split.
        -- intros j Hj. destruct (decide (j = a)) as [->|]; [|apply Hno; lia].
           rewrite Ha. by intros ??.
        -- rewrite Hn. lia.
      * intros (k & Hk & Hg & Hno & Hn).
        assert (k ≠ a) by (intros ->; congruence).
        exists k. split; [lia|]. split; [done|]. split; [intros; apply Hno; lia|lia].
    + rewrite IH. split.
      * intros (k & Hk & Hg & Hno & Hn). exists k. split; [lia|]. split; [done|]. split.
        -- intros j Hj. destruct (decide (j = a)) as [->|]; [|apply Hno; lia].
           rewrite Ha. by intros ??.
        -- rewrite Hn. lia.
      * intros (k & Hk & Hg & Hno & Hn).
        assert (k ≠ a) by (intros ->; congruence).
        exists k. split; [lia|]. split; [done|]. split; [intros; apply Hno; lia|lia].
Qed.

Lemma request_attempts_refused r a :
  (a + r = 10)%nat →
  granted (request_attempts reply r a) = None →
  requests (request_attempts reply r a) = r ∧
  90 - Z.of_nat a * (Z.of_nat a + 1) ≤ slept (request_attempts reply r a).
Proof.
  revert a. induction r as [|r IH]; intros a Har; cbn [request_attempts].
  - simpl. intros _. split; [done|]. nia.
  - pose proof (request_attempts_bounds r (S a)) as [_ Hb].
    destruct (reply a); cbn [after_sleep granted requests slept]; [done|..]; intros Hg;
      destruct (IH (S a) ltac:(lia) Hg) as [-> Hs]; (split; [done|]);
      unfold retry_delay_503, wait_time, max_retries;
      try destruct (Nat.ltb_spec a (10 - 1)); nia.
Qed.

Lemma request_attempts_unavailable r a :
  (∀ k, (a ≤ k < a + r)%nat → reply k = Unavailable) →
  request_attempts reply r a = mkRequest None (35 * Z.of_nat r) r.
Proof.
  revert a. induction r as [|r IH]; intros a H; cbn [request_attempts].
  - done.
  - rewrite (H a) by lia. rewrite IH by (intros; apply H; lia).
    unfold after_sleep, retry_delay_503. cbn [granted slept requests]. f_equal. lia.
Qed.
End RequestLoop.

(** X17.  [AdvancedDockerManager._request_instance_async] sends at most
    ten requests and sleeps at most 350 seconds.  It returns the grant of
    the first attempt that is answered with one, having sent exactly the
    requests up to it, and returns a grant in no other case.  Without a
    grant all ten requests are sent and at least 90 seconds are slept;
    ten 503 answers cost the full 350 seconds, the last 35 of them after
    the final attempt. *)
Theorem request_instance_retry_budget (reply : nat → AllocateReply) :
  let r := _request_instance_async reply in
  (requests r ≤ 10)%nat ∧ 0 ≤ slept r ≤ 350 ∧
  (∀ i ep, granted r = Some (i, ep) ↔
     ∃ k, (k < 10)%nat ∧ reply k = Granted i ep ∧
          (∀ j, (j < k)%nat → refused (reply j)) ∧ requests r = S k) ∧
  (granted r = None → requests r = 10%nat ∧ 90 ≤ slept r) ∧
  ((∀ k, (k < 10)%nat → reply k = Unavailable) → slept r = 350).
Proof.
  intros r. subst r. unfold _request_instance_async, max_retries.
  pose proof (request_attempts_bounds reply 10 0) as [Hn Hs].
  split; [done|]. split; [lia|]. split; [|split].
  - intros i ep. rewrite request_attempts_granted. split.
    + intros (k & Hk & Hg & Hno & Hr). exists k. split; [lia|]. split; [done|].
      split; [intros; apply Hno; lia|]. rewrite Hr. f_equal. lia.
    + intros (k & Hk & Hg & Hno & Hr). exists k. split; [lia|]. split; [done|].
      split; [intros; apply Hno; lia|]. rewrite Hr. f_equal. lia.
  - intros Hg. destruct (request_attempts_refused reply 10 0 eq_refl Hg) as [? ?].
    split; [done|]. lia.
  - intros H. rewrite request_attempts_unavailable by (intros; apply H; lia). done.
Qed.



